(** * A shallow embedding of the hpycc upload ("spray") pipeline

    Sources embedded here:
    - [hpycc/spray.py]: [spray_file], [_stringify_rows], [_make_record_set],
      [_spray_stringified_data], [concatenate_logical_files];
    - [hpycc/filerunning/sendfiles.py]: [send_file_internal],
      [_send_file_in_chunks], [concat_files], [make_rows], [make_recordset],
      [send_data];
    - [hpycc/save.py]: [save_outputs].

    Python strings are modelled as Rocq strings (their characters outside
    ASCII are never kept by the code paths below, which only test for
    [A-Za-z0-9], quotes and the lower-case null markers); Python's [str] of
    an [int] is stdpp's [pretty] on [nat]. *)

From Stdlib Require Import Ascii String Arith Lia.
From Stdlib Require Import Sorted.
From stdpp Require Import base list strings pretty.

Local Open Scope nat_scope.

(* ------------------------------------------------------------------ *)
(** ** Character classes and string helpers *)

Definition is_digit (c : ascii) : bool :=
  let n := nat_of_ascii c in (48 <=? n) && (n <=? 57).
Definition is_upper (c : ascii) : bool :=
  let n := nat_of_ascii c in (65 <=? n) && (n <=? 90).
Definition is_lower (c : ascii) : bool :=
  let n := nat_of_ascii c in (97 <=? n) && (n <=? 122).
Definition is_alpha (c : ascii) : bool := is_upper c || is_lower c.
(** The character class [[A-Za-z0-9]] of the regular expressions. *)
Definition is_alnum (c : ascii) : bool := is_alpha c || is_digit c.

Fixpoint all_chars (p : ascii -> bool) (s : string) : bool :=
  match s with
  | EmptyString => true
  | String c r => p c && all_chars p r
  end.

(** [s] matches [^[A-Za-z][A-Za-z0-9]*$]. *)
Definition is_ident (s : string) : bool :=
  match s with
  | EmptyString => false
  | String c r => is_alpha c && all_chars is_alnum r
  end.

(** Python's [",".join(xs)]. *)
Fixpoint join (sep : string) (xs : list string) : string :=
  match xs with
  | [] => ""
  | [x] => x
  | x :: r => x +:+ sep +:+ join sep r
  end.

(* ------------------------------------------------------------------ *)
(** ** Chunk planner *)

(** Modelled from the spec: [hpycc.utils.filechunker.make_chunks], whose
    source is not part of the repository snapshot.  [spray_file] calls it as
    [make_chunks(len(df), logical_csv=False, chunk_size=chunk_size)] and
    iterates over the result as [(start_row, num_rows)] pairs; the spec
    (section 4.3) says it partitions [[0, totalRows)] into consecutive ranges
    of length [chunkSize], the last one shortened to the remainder, and
    returns an empty plan for [totalRows = 0]. *)
Fixpoint make_chunks_go (fuel start remaining chunk_size : nat)
    : list (nat * nat) :=
  match fuel with
  | 0 => []
  | S fuel' =>
      if decide (remaining = 0) then []
      else
        let n := Nat.min chunk_size remaining in
        (start, n) :: make_chunks_go fuel' (start + n) (remaining - n) chunk_size
  end.

Definition make_chunks (total chunk_size : nat) : list (nat * nat) :=
  make_chunks_go total 0 total chunk_size.

(** The ranges of [p] follow each other without gap or overlap, each is
    non-empty, the first starts at [start] and the last ends at [stop]. *)
Fixpoint tiles (start stop : nat) (p : list (nat * nat)) : Prop :=
  match p with
  | [] => start = stop
  | (s, c) :: r => s = start /\ 0 < c /\ tiles (start + c) stop r
  end.

(** The row indices a plan covers, in plan order. *)
Definition covered (p : list (nat * nat)) : list nat :=
  flat_map (fun '(s, c) => seq s c) p.

Definition ceil_div (a b : nat) : nat := (a + b - 1) / b.

(* ------------------------------------------------------------------ *)
(** ** DataFrames *)

(** A cell of an object-dtype column: a Python string, or a missing value
    ([NaN]/[None]) as [None].  Frames are modelled with object columns only.
    In [sendfiles] this is no restriction once [make_recordset] has applied
    [astype('str')] to every column.  The [spray] functions are modelled on
    such frames, with distinct column names other than [index]: on a numeric
    column, [_stringify_rows]'s [.str] raises [AttributeError], a path this
    model does not cover. *)
Definition cell := option string.

(** A DataFrame: its row labels and its named columns, in column order;
    every column holds one cell per row label. *)
Record frame := mk_frame {
  index : list nat;
  columns : list (string * list cell)
}.

Definition empty_frame : frame := mk_frame [] [].

(** Values of [vs] whose row label satisfies [keep]. *)
Fixpoint select_rows (keep : nat -> bool) (labels : list nat) (vs : list cell)
    : list cell :=
  match labels, vs with
  | l :: ls, v :: vs' =>
      if keep l then v :: select_rows keep ls vs' else select_rows keep ls vs'
  | _, _ => []
  end.

(** [df.loc[a:b, df.columns]] (and [df.loc[a:b, :]]) on a sorted integer
    index: label-based slicing, both bounds included. *)
Definition loc_slice (df : frame) (a b : nat) : frame :=
  let keep := fun l => (a <=? l) && (l <=? b) in
  mk_frame (filter keep (index df))
           (map (fun '(n, vs) => (n, select_rows keep (index df) vs)) (columns df)).

(** [str(v)] of a cell, as done by [astype(str)]: a missing value prints as
    [nan]. *)
Definition astype_str (c : cell) : string :=
  match c with Some s => s | None => "nan" end.

(** The rows of a frame as lists of cells, in column order. *)
Definition frame_rows (df : frame) : list (list cell) :=
  map (fun i => map (fun '(_, vs) => default None (vs !! i)) (columns df))
      (seq 0 (length (index df))).

(** [Series.str.replace("'", "\\'")]: every single quote gets a backslash. *)
Fixpoint escape_quotes (s : string) : string :=
  match s with
  | EmptyString => EmptyString
  | String c r =>
      if decide (c = "'"%char) then String "\"%char (String "'"%char (escape_quotes r))
      else String c (escape_quotes r)
  end.

(** Python's [str.lower] on the ASCII letters. *)
Definition lower_char (c : ascii) : ascii :=
  if is_upper c then ascii_of_nat (nat_of_ascii c + 32) else c.
Fixpoint lower (s : string) : string :=
  match s with
  | EmptyString => EmptyString
  | String c r => String (lower_char c) (lower r)
  end.

(** [_get_type] (both modules): every dtype maps to [STRING]. *)
Definition get_type (dtype : string) : string := "STRING".

(** The dtype of an object column, as [str(dtype)] prints it. *)
Definition object_dtype : string := "object".

(** Python's [os.path.join(d, n)] on POSIX paths. *)
Definition path_join (d n : string) : string :=
  match n with
  | String "/"%char _ => n
  | _ =>
      if decide (d = "") then n
      else if decide (String.substring (String.length d - 1) 1 d = "/") then d +:+ n
      else d +:+ "/" +:+ n
  end.

Definition nl : string := String (ascii_of_nat 10) EmptyString.

(* ------------------------------------------------------------------ *)
(** ** Schema derivation *)

(** [re.sub('[^A-Za-z0-9]', '', nam)]. *)
Fixpoint strip_non_alnum (s : string) : string :=
  match s with
  | EmptyString => EmptyString
  | String c r => if is_alnum c then String c (strip_non_alnum r) else strip_non_alnum r
  end.

(** [re.match('^[0-9]', s)]. *)
Definition starts_with_digit (s : string) : bool :=
  match s with String c _ => is_digit c | EmptyString => false end.

(** The name part of [make_recordset]'s loop body, with the anonymous
    column counter [unnamed_iterator] threaded through. *)
Definition safe_name_of (nam : string) (unnamed_iterator : nat) : string * nat :=
  let safe_name := strip_non_alnum nam in
  let '(safe_name, it) :=
    if decide (safe_name = "") then ("unnamed" +:+ pretty unnamed_iterator, S unnamed_iterator)
    else (safe_name, unnamed_iterator) in
  let safe_name := if starts_with_digit safe_name then "num" +:+ safe_name else safe_name in
  (safe_name, it).

(** [str(column_append)] where [column_append] is [''], then [1], [2], ...;
    the [k]-th candidate suffix. *)
Definition suffix (k : nat) : string := if decide (k = 0) then "" else pretty k.

(** [while new_entry + str(column_append) in record_set: ...]; [k] is the
    current value of [column_append]. *)
Fixpoint find_suffix (fuel : nat) (new_entry : string) (record_set : list string)
    (k : nat) : nat :=
  match fuel with
  | 0 => k
  | S fuel' =>
      if decide (new_entry +:+ suffix k ∈ record_set)
      then find_suffix fuel' new_entry record_set (S k) else k
  end.

(** [make_recordset]'s normalisation of one cell of a [STRING] column:
    [astype('str')], the three null markers blanked in turn, then quoted with
    its single quotes escaped. *)
Definition blank_if (marker : string) (v : string) : string :=
  if decide (lower v = marker) then "" else v.
Definition normalise_cell (c : cell) : cell :=
  let v := astype_str c in
  let v := blank_if "nan" v in
  let v := blank_if "na" v in
  let v := blank_if "null" v in
  Some ("'" +:+ escape_quotes v +:+ "'").

(** [fillna(0)] for the non-[STRING] branch. *)
Definition fill_zero (c : cell) : cell := Some (default "0" c).

(** The loop of [make_recordset] over [zip(col_types, col_names)]: the record
    set entries appended so far, the anonymous counter, and the rewritten
    columns. The [while] loop is given [length record_set + 1] rounds, which
    always reaches a fresh suffix (lemma [find_suffix_fresh]). *)
Fixpoint make_recordset_go (cols : list (string * list cell))
    (record_set : list string) (unnamed_iterator : nat)
    : list string * list (string * list cell) :=
  match cols with
  | [] => (record_set, [])
  | (nam, vs) :: rest =>
      let ecl_script := get_type object_dtype in
      let '(safe_name, it) := safe_name_of nam unnamed_iterator in
      let new_entry := ecl_script +:+ " " +:+ safe_name in
      let k := find_suffix (S (length record_set)) new_entry record_set 0 in
      let record_set' := record_set ++ [new_entry +:+ suffix k] in
      let vs' := if decide (ecl_script = "STRING") then map normalise_cell vs
                 else map fill_zero vs in
      let '(rs, cols') := make_recordset_go rest record_set' it in
      (rs, (nam, vs') :: cols')
  end.

(** The record set entries of [make_recordset], before [';'.join]. *)
Definition record_entries (df : frame) : list string :=
  fst (make_recordset_go (columns df) [] 0).

(** [make_recordset(df)]: the rewritten frame and the record set text. *)
Definition make_recordset (df : frame) : frame * string :=
  let '(rs, cols) := make_recordset_go (columns df) [] 0 in
  (mk_frame (index df) cols, join ";" rs).

(** [dict] keys in first-insertion order, as [df.dtypes.to_dict()] keeps
    them. *)
Fixpoint dedup_first (seen : list string) (xs : list string) : list string :=
  match xs with
  | [] => []
  | x :: r => if decide (x ∈ seen) then dedup_first seen r
              else x :: dedup_first (seen ++ [x]) r
  end.

(** [spray._make_record_set(df)]. *)
Definition spray_make_record_set (df : frame) : string :=
  join ";" (map (fun col => col +:+ " " +:+ get_type object_dtype)
                (dedup_first [] (map fst (columns df)))).

(** The number of column names that sanitise to the empty string. *)
Fixpoint anon_count (names : list string) : nat :=
  match names with
  | [] => 0
  | n :: r => (if decide (strip_non_alnum n = "") then 1 else 0) + anon_count r
  end.

(* ------------------------------------------------------------------ *)
(** ** Effects: the cluster, the local disk and the Python heap *)

Inductive exn :=
  | RuntimeError (msg : string)
  | EnvironmentError (msg : string)
  | TypeError.

Inductive res (A : Type) :=
  | Ok (a : A)
  | Exc (e : exn).
Arguments Ok {A} a.
Arguments Exc {A} e.

(** What the program does to the outside world, in order. *)
Inductive event :=
  | RunEcl (script : string)        (** an ECL script handed to the cluster *)
  | SyntaxCheck (script : string)   (** [eclcc -syntax] on a script *)
  | DeleteLogical (name : string)   (** [delete_logical_file] *)
  | WriteCsv (path : string).       (** [DataFrame.to_csv(path)] *)

(** The trace of events and the heap of DataFrame objects: a DataFrame is
    passed around by reference, a location in [heap]. *)
Record world := mk_world {
  trace : list event;
  heap : list frame
}.

Definition M (A : Type) : Type := world -> res A * world.

Definition ret {A} (a : A) : M A := fun w => (Ok a, w).
Definition raise {A} (e : exn) : M A := fun w => (Exc e, w).
Definition bind {A B} (m : M A) (k : A -> M B) : M B :=
  fun w => match m w with
           | (Ok a, w') => k a w'
           | (Exc e, w') => (Exc e, w')
           end.
Notation "'let*' x ':=' m 'in' k" := (bind m (fun x => k))
  (at level 200, x name, m at level 100, k at level 200).

Definition emit (e : event) : M unit :=
  fun w => (Ok tt, mk_world (trace w ++ [e]) (heap w)).

Fixpoint mapM {A B} (f : A -> M B) (xs : list A) : M (list B) :=
  match xs with
  | [] => ret []
  | x :: r => let* y := f x in let* ys := mapM f r in ret (y :: ys)
  end.

(** Heap operations: reading a DataFrame, allocating a new one (what a
    pandas indexing operation that copies does) and overwriting one in place. *)
Definition read (l : nat) : M frame :=
  fun w => (Ok (default empty_frame (heap w !! l)), w).
Definition alloc (f : frame) : M nat :=
  fun w => (Ok (length (heap w)), mk_world (trace w) (heap w ++ [f])).
Definition write (l : nat) (f : frame) : M unit :=
  fun w => (Ok tt, mk_world (trace w) (<[l := f]> (heap w))).

(** A task run by [ThreadPoolExecutor.submit]: its exception, if any, is
    stored in the future and not raised in the submitting thread. *)
Definition submit_task {A} (m : M A) : M (res A) :=
  fun w => let '(r, w') := m w in (Ok r, w').

Section Gateway.

(** The cluster, reached through the [Connection] object (not part of the
    repository snapshot): the error stream and the output stream a script
    produces, and whether [eclcc -syntax] reports an error for it. *)
Variable stderr_of : string -> string.
Variable stdout_of : string -> string.
Variable syntax_error : string -> bool.

(** Modelled from the spec: [Connection.run_ecl_string] (section 6, the
    Execution Gateway): runs the script and fails when its error stream is
    not empty. *)
Definition run_ecl_string (script : string) : M unit :=
  let* _ := emit (RunEcl script) in
  if decide (stderr_of script = "") then ret tt
  else raise (RuntimeError (stderr_of script)).

(** Modelled from the spec: [hpycc.delete.delete_logical_file]; the
    deletion collaborator answers [success] or [notFound] and neither is an
    error for the caller. *)
Definition delete_logical_file (name : string) : M unit :=
  emit (DeleteLogical name).

(** *** [hpycc/spray.py] *)

Definition overwrite_flag (overwrite : bool) : string :=
  if overwrite then ", OVERWRITE" else "".

(** The script text of [_spray_stringified_data]. *)
Definition spray_script (data record_set logical_file : string) (overwrite : bool)
    : string :=
  "a := DATASET([" +:+ data +:+ "], {" +:+ record_set +:+ "});" +:+ nl +:+
  "OUTPUT(a, ,'" +:+ logical_file +:+ "' , EXPIRE(1)" +:+
  overwrite_flag overwrite +:+ ");".

Definition _spray_stringified_data (data record_set logical_file : string)
    (overwrite : bool) : M unit :=
  run_ecl_string (spray_script data record_set logical_file overwrite).

(** The script text of [concatenate_logical_files]. *)
Definition concat_script (to_concat : list string) (logical_file record_set : string)
    (overwrite : bool) : string :=
  let read_files :=
    map (fun nam => "DATASET('" +:+ nam +:+ "', {" +:+ record_set +:+ "}, THOR)")
        to_concat in
  "a := " +:+ join ("+" +:+ nl) read_files +:+ ";" +:+ nl +:+
  "OUTPUT(a, ,'" +:+ logical_file +:+ "' " +:+ overwrite_flag overwrite +:+ ");".

Definition concatenate_logical_files (to_concat : list string)
    (logical_file record_set : string) (overwrite : bool) : M unit :=
  run_ecl_string (concat_script to_concat logical_file record_set overwrite).

(** [_stringify_rows]'s rewriting of one cell of a [STRING] column:
    [fillna("")], quote escaping, quoting. *)
Definition spray_string_cell (c : cell) : cell :=
  Some ("'" +:+ escape_quotes (default "" c) +:+ "'").

(** [sliced_df[col] = ...] for the column at position [i]: [STRING] columns
    through [spray_string_cell], [fillna(0)] otherwise. *)
Definition stringify_column (i : nat) (f : frame) : frame :=
  mk_frame (index f)
    (alter (fun '(n, vs) =>
              (n, if decide (get_type object_dtype = "STRING")
                  then map spray_string_cell vs
                  else map fill_zero vs))
           i (columns f)).

(** [reset_index(inplace=True)]: the old row labels become the first column
    and the labels restart at 0. *)
Definition reset_index (f : frame) : frame :=
  mk_frame (seq 0 (length (index f)))
           (("index", map (fun l => Some (pretty l)) (index f)) :: columns f).

(** [','.join(["{" + ','.join(i) + "}" for i in f.astype(str).values.tolist()])]. *)
Definition render_rows (f : frame) : string :=
  join "," (map (fun r => "{" +:+ join "," (map astype_str r) +:+ "}") (frame_rows f)).

(** [_stringify_rows(df, start_row, num_rows)], [df] given by reference. *)
Definition _stringify_rows (df : nat) (start_row num_rows : nat) : M string :=
  let* d := read df in
  let* sliced_df := alloc (loc_slice d start_row (start_row + num_rows)) in
  let* _ := mapM (fun i => let* f := read sliced_df in
                           write sliced_df (stringify_column i f))
                 (seq 0 (length (columns d))) in
  let* f := read sliced_df in
  let* _ := write sliced_df (reset_index f) in
  let* f := read sliced_df in
  ret (render_rows f).

(** The temporary logical file name of a chunk. *)
Definition temp_name (logical_file : string) (start_row end_row : nat) : string :=
  "TEMPHPYCC::" +:+ logical_file +:+ "from" +:+ pretty start_row +:+ "to" +:+ pretty end_row.

(** [spray_file(connection, source_file, logical_file, overwrite, chunk_size,
    max_workers)] for a DataFrame [source_file], given by reference.  The
    pool's tasks run each chunk's submission; their interleaving only
    reorders the [RunEcl] events of the concurrent phase, which are recorded
    here in submission order. [concurrent.futures.wait] returns when every
    future is done and raises nothing. *)
Definition spray_file (source_file : nat) (logical_file : string) (overwrite : bool)
    (chunk_size max_workers : nat) : M unit :=
  let* df := read source_file in
  let record_set := spray_make_record_set df in
  let chunks := make_chunks (length (index df)) chunk_size in
  let target_names :=
    map (fun '(start_row, num_rows) => temp_name logical_file start_row (start_row + num_rows))
        chunks in
  let* futures :=
    mapM (fun '((start_row, num_rows), name) =>
            let* row := _stringify_rows source_file start_row num_rows in
            submit_task (_spray_stringified_data row record_set name overwrite))
         (zip chunks target_names) in
  let* _ := concatenate_logical_files target_names logical_file record_set overwrite in
  let* _ := mapM delete_logical_file target_names in
  ret tt.

(** *** [hpycc/filerunning/sendfiles.py] and [hpycc/scriptrunning/runscript.py] *)

(** [run_script_internal(temp_script, hpcc_connection, True)] on the file
    [send_data] has just written [script] to: [syntax_check] raises
    [EnvironmentError] on a reported error, then [run_command] runs it and
    a non-empty [stderr] becomes a [RuntimeError]. *)
Definition run_script_internal (script : string) : M unit :=
  let* _ := emit (SyntaxCheck script) in
  if syntax_error script then raise (EnvironmentError script)
  else
    let* _ := emit (RunEcl script) in
    if decide (stderr_of script = "") then ret tt
    else raise (RuntimeError ("Script returned an error: " +:+ stderr_of script)).

(** The script text of [send_data]. *)
Definition send_data_script (all_rows record_set target_name : string)
    (overwrite : bool) : string :=
  "a := DATASET([" +:+ all_rows +:+ "], {" +:+ record_set +:+ "});" +:+ nl +:+
  "OUTPUT(a, ,'" +:+ target_name +:+ "' , EXPIRE(1)" +:+ overwrite_flag overwrite +:+ ");".

(** [send_data(...)]; writing and removing the local [temp_script] file is
    not recorded. *)
Definition send_data (all_rows record_set target_name : string) (overwrite : bool)
    (delete : bool) : M unit :=
  run_script_internal (send_data_script all_rows record_set target_name overwrite).

(** The script text of [concat_files]. *)
Definition concat_files_script (target_names : list string)
    (target_name record_set : string) (overwrite delete : bool) : string :=
  let read_files :=
    map (fun nam => "DATASET('" +:+ nam +:+ "', {" +:+ record_set +:+ "}, THOR)")
        target_names in
  let script :=
    "a := " +:+ join ("+" +:+ nl) read_files +:+ ";" +:+ nl +:+
    "OUTPUT(a, ,'" +:+ target_name +:+ "' " +:+ overwrite_flag overwrite +:+ ");" in
  if delete then
    script +:+ nl +:+ nl +:+ "IMPORT std;" +:+ nl +:+
    join ";" (map (fun nam => "STD.File.DeleteLogicalFile('" +:+ nam +:+ "')") target_names)
    +:+ ";"
  else script.

(** [concat_files(...)]: [run_command]'s answer is not inspected. *)
Definition concat_files (target_names : list string) (target_name record_set : string)
    (overwrite delete : bool) : M unit :=
  emit (RunEcl (concat_files_script target_names target_name record_set overwrite delete)).

(** [make_rows(df, start, end)]: [df.loc[start:end, :]], one [{...}] per row.
    On a slice with no row, [apply(..., axis=1)] returns an empty [float64]
    Series, and ['{' + ...] on it raises numpy's [UFuncTypeError], a
    [TypeError]. *)
Definition make_rows (df : frame) (start end_ : nat) : M string :=
  let sliced := loc_slice df start end_ in
  match index sliced with
  | [] => raise TypeError
  | _ => ret (render_rows sliced)
  end.

(** Python's [l[1:-1]]. *)
Definition inner {A} (l : list A) : list A := removelast (tail l).

(** [_send_file_in_chunks(...)]; [break_positions] is the first component of
    the result of [hpycc.utils.filechunker.make_chunks(len(df),
    csv_file=False, chunk_size=chunk_size)], a collaborator whose source is
    not in the snapshot: the definition is stated for any such list. *)
Definition _send_file_in_chunks (df : frame) (target_name : string)
    (break_positions : list nat) (record_set : string) (overwrite delete : bool)
    : M unit :=
  let end_rows := inner break_positions ++ [length (index df)] in
  let start_rows := 0 :: map S (inner break_positions) in
  let bounds := zip start_rows end_rows in
  let target_names := map (fun '(start, end_) => temp_name target_name start end_) bounds in
  let* _ := mapM (fun '(start, end_) =>
                    let* all_rows := make_rows df start end_ in
                    send_data all_rows record_set target_name overwrite delete)
                 bounds in
  concat_files target_names target_name record_set overwrite delete.

(** [send_file_internal(...)] after [pd.read_csv] has produced [df]. *)
Definition send_file_internal (df : frame) (target_name : string)
    (overwrite delete : bool) (chunk_size : nat) (break_positions : list nat)
    : M unit :=
  let '(df, record_set) := make_recordset df in
  if decide (chunk_size < length (index df)) then
    _send_file_in_chunks df target_name break_positions record_set overwrite delete
  else
    let* all_rows := make_rows df 0 (length (index df)) in
    send_data all_rows record_set target_name overwrite delete.

(** *** [hpycc/save.py] *)

(** [re.findall("<Dataset name='(?P<name>.+?)'>(?P<content>.+?)</Dataset>",
    stdout)] and [hpycc.utils.parsers.parse_xml]: the pairs the regular
    expression extracts, and the parser (which may raise). *)
Variable find_datasets : string -> list (string * string).
Variable parse_xml : string -> res frame.

(** Modelled from the spec: [Connection.run_ecl_script] (section 6, the
    Execution Gateway): runs the script, fails when its error stream is not
    empty, and answers its output stream otherwise. *)
Definition run_ecl_script (script : string) : M string :=
  let* _ := emit (RunEcl script) in
  if decide (stderr_of script = "") then ret (stdout_of script)
  else raise (RuntimeError (stderr_of script)).

(** [(name, parse_xml(xml))] for one pair the regular expression found. *)
Definition parse_output '((name, xml) : string * string) : M (string * frame) :=
  fun w => match parse_xml xml with
           | Ok df => (Ok (name, df), w)
           | Exc e => (Exc e, w)
           end.

(** The exception of the first output that fails to parse, if any. *)
Fixpoint first_parse_error (results : list (string * string)) : option exn :=
  match results with
  | [] => None
  | (_, xml) :: rest =>
      match parse_xml xml with
      | Ok _ => first_parse_error rest
      | Exc e => Some e
      end
  end.

(** [itertools.zip_longest(a, b)] for two lists, padding with [None]. *)
Fixpoint zip_longest {A B} (a : list A) (b : list B) : list (option A * option B) :=
  match a with
  | [] => map (fun y => (None, Some y)) b
  | x :: a' =>
      match b with
      | [] => (Some x, None) :: zip_longest a' []
      | y :: b' => (Some x, Some y) :: zip_longest a' b'
      end
  end.

(** Python truthiness of an optional string. *)
Definition truthy (s : option string) : option string :=
  match s with Some x => if decide (x = "") then None else Some x | None => None end.

(** [save_outputs(connection, script, directory, filenames, prefix, ...)];
    [filenames] and [prefix] are [None] or a value. *)
Definition save_outputs (script directory : string)
    (filenames : option (list string)) (prefix : option string) : M unit :=
  let* stdout := run_ecl_script script in
  let results := find_datasets stdout in
  let* parsed_data_frames := mapM parse_output results in
  let parsed_filenames := map (fun '(name, _) => name +:+ ".csv") parsed_data_frames in
  (* [itertools.zip_longest(filenames, ...)] iterates over [filenames]. *)
  let* fns := match filenames with
              | None => raise TypeError
              | Some l => ret l
              end in
  let chosen_filenames :=
    map (fun '(fn, pfn) => match truthy fn with Some f => Some f | None => pfn end)
        (zip_longest fns parsed_filenames) in
  let* chosen_filenames :=
    match truthy prefix with
    | None => ret chosen_filenames
    | Some p => mapM (fun n => match n with
                               | Some n => ret (Some (p +:+ n))
                               | None => raise TypeError
                               end) chosen_filenames
    end in
  let* _ := mapM (fun '(name, _) =>
                    match name with
                    | Some n => emit (WriteCsv (path_join directory n))
                    | None => raise TypeError
                    end)
                 (zip chosen_filenames parsed_data_frames) in
  ret tt.

End Gateway.

(** *** [hpycc/utils/syntaxcheck.py] *)

(** Python's [needle in hay] on strings. *)
Fixpoint contains (needle hay : string) : bool :=
  match hay with
  | EmptyString => String.prefix needle hay
  | String _ r => String.prefix needle hay || contains needle r
  end.

(** [command = "eclcc -syntax {}{} {}".format(legacy_flag, repo_flag, script)]. *)
Definition syntax_command (legacy : bool) (repo : option string) (script : string) : string :=
  let repo_flag := match repo with None => " " | Some r => "-I " +:+ r end in
  let legacy_flag := if legacy then "-legacy " else "" in
  "eclcc -syntax " +:+ legacy_flag +:+ repo_flag +:+ " " +:+ script.

(** The exceptions [syntax_check] raises. *)
Inductive syntax_exn :=
  | FileNotFoundError (msg : string)
  | SyntaxEnvironmentError (msg : string).

(** What a call to [syntax_check] does: it returns, after logging a warning
    or not, or it raises. *)
Inductive syntax_outcome :=
  | Passes (warning : option string)
  | Raises (e : syntax_exn).

(** [syntax_check(script, hpcc_server)]: [is_file] is [os.path.isfile] and
    [run_stderr command] the [stderr] that [run_command] returns. *)
Definition syntax_check (is_file : string -> bool) (run_stderr : string -> string)
    (legacy : bool) (repo : option string) (script : string) : syntax_outcome :=
  if negb (is_file script) then Raises (FileNotFoundError ("Script " +:+ script +:+ " not found"))
  else
    let err := run_stderr (syntax_command legacy repo script) in
    if bool_decide (err <> "") && contains ": error" (lower err) then
      Raises (SyntaxEnvironmentError
                ("Script " +:+ script +:+ " does not compile! Errors: " +:+ nl +:+ " " +:+ err))
    else if bool_decide (err <> "") && contains ": warning" (lower err) then
      Passes (Some ("Script " +:+ script +:+ " raises the following warnings: " +:+ nl +:+ " " +:+ err))
    else if bool_decide (err <> "") && negb (contains ": warning" (lower err)) then
      Raises (SyntaxEnvironmentError
                ("Script " +:+ script +:+ " contains unhandled feedback: " +:+ nl +:+ " " +:+ err))
    else Passes None.

(* ================================================================== *)
(** * Predicates and sample inputs used by the properties *)

(** Every entry is [STRING <name>] with [name] an identifier. *)
Definition entries_ok (rs : list string) : Prop :=
  NoDup rs /\ forall e, e ∈ rs -> exists name, e = "STRING " +:+ name /\ is_ident name = true.

(** The logical files a trace deletes, in order. *)
Fixpoint deletes (tr : list event) : list string :=
  match tr with
  | [] => []
  | DeleteLogical n :: tr' => n :: deletes tr'
  | _ :: tr' => deletes tr'
  end.

(** Every event [m] adds satisfies [P]. *)
Definition emits_only {A} (P : event -> Prop) (m : M A) : Prop :=
  forall w, exists evs, trace (snd (m w)) = trace w ++ evs /\ Forall P evs.

(** A three-row, one-column DataFrame. *)
Definition abc_frame : frame :=
  mk_frame [0; 1; 2] [("name", [Some "x"; Some "y"; Some "z"])].

(** A two-row string column holding a null marker and a single quote. *)
Definition null_quote_frame : frame :=
  mk_frame [0; 1] [("c", [Some "NULL"; Some "O'Brien"])].

(** Clusters: one that accepts every script, one whose error stream is not
    empty exactly for the chunk submissions of [spray_file] (scripts that
    start with an inline [DATASET([...])]), one that fails exactly the
    concatenations (scripts that start by reading a logical file), and one
    that fails every script. *)
Definition all_ok_gateway (script : string) : string := "".
Definition failing_gateway (script : string) : string := "boom".

(** A script [run_script_internal] accepts: no syntax error reported and an
    empty error stream. *)
Definition script_passes (stderr_of : string -> string) (syntax_error : string -> bool)
    (s : string) : bool :=
  negb (syntax_error s) && bool_decide (stderr_of s = "").

(** The items in front of the first one [p] refuses, and that one. *)
Fixpoint split_at_failure {A} (p : A -> bool) (xs : list A) : list A * option A :=
  match xs with
  | [] => ([], None)
  | x :: r =>
      if p x then let '(ok, failed) := split_at_failure p r in (x :: ok, failed)
      else ([], Some x)
  end.

(** The events of a script [run_script_internal] accepts. *)
Definition checked_run (s : string) : list event := [SyntaxCheck s; RunEcl s].

(** Whether the range [(start, end)] selects no row of [df], so that
    [make_rows] raises on it. *)
Definition slice_empty (df : frame) (b : nat * nat) : bool :=
  match index (loc_slice df b.1 b.2) with [] => true | _ => false end.

(** [m] leaves the first [n] heap objects as they are. *)
Definition keeps {A} (n : nat) (m : M A) : Prop :=
  forall w, n <= length (heap w) ->
    n <= length (heap (snd (m w))) /\ take n (heap (snd (m w))) = take n (heap w).

Definition caller_frame : frame :=
  mk_frame [0; 1; 2] [("name", [Some "O'Brien"; None; Some "null"])].


(* ================================================================== *)
(** * Properties *)

(* ------------------------------------------------------------------ *)
(** ** Chunk planner *)

Lemma ceil_div_0 (cs : nat) : 0 < cs -> ceil_div 0 cs = 0.
Proof. intros. unfold ceil_div. apply Nat.div_small. lia. Qed.

Lemma ceil_div_step (rem cs : nat) :
  0 < cs -> rem <> 0 -> ceil_div rem cs = S (ceil_div (rem - Nat.min cs rem) cs).
Proof.
  intros Hcs Hrem. unfold ceil_div.
  destruct (Nat.le_gt_cases cs rem) as [Hle | Hlt].
  - rewrite Nat.min_l by lia.
    replace (rem + cs - 1) with ((rem - cs + cs - 1) + 1 * cs) by lia.
    rewrite Nat.div_add by lia. lia.
  - rewrite Nat.min_r by lia. rewrite Nat.sub_diag, (Nat.div_small (0 + cs - 1)) by lia.
    symmetry. apply (Nat.div_unique _ _ _ (rem - 1)); lia.
Qed.

Lemma make_chunks_go_spec (cs fuel start rem : nat) :
  0 < cs -> rem <= fuel ->
  tiles start (start + rem) (make_chunks_go fuel start rem cs)
  /\ covered (make_chunks_go fuel start rem cs) = seq start rem
  /\ Forall (fun '(_, c) => c <= cs) (make_chunks_go fuel start rem cs)
  /\ length (make_chunks_go fuel start rem cs) = ceil_div rem cs.
Proof.
  intros Hcs. revert start rem.
  induction fuel as [|fuel IH]; intros start rem Hle; simpl.
  - assert (rem = 0) as -> by lia. rewrite ceil_div_0 by done.
    repeat split; simpl; try constructor; lia.
  - case_decide as Hz.
    { subst rem. rewrite ceil_div_0 by done. repeat split; simpl; try constructor; lia. }
    set (n := Nat.min cs rem).
    assert (0 < n /\ n <= cs /\ n <= rem) as (Hn0 & Hncs & Hnrem) by (unfold n; lia).
    destruct (IH (start + n) (rem - n)) as (Ht & Hc & Hf & Hl); [lia|].
    replace (start + n + (rem - n)) with (start + rem) in Ht by lia.
    split; [|split; [|split]].
    + simpl. auto.
    + unfold covered in *. simpl. rewrite Hc, <- seq_app. f_equal. lia.
    + constructor; auto.
    + simpl. rewrite Hl, (ceil_div_step rem cs) by done. reflexivity.
Qed.

(** Claim C1. For every [totalRows] and every positive [chunkSize], the
    chunk plan of [spray_file] tiles [[0, totalRows)]: its ranges are
    non-empty, start at 0, each starts where the previous one ends and the
    last ends at [totalRows] (contiguous, non-overlapping); the row indices
    they cover, in order, are exactly [0, ..., totalRows - 1], each once; each
    range holds at most [chunkSize] rows; there are
    [ceil(totalRows / chunkSize)] ranges, none when [totalRows = 0]. *)
Theorem make_chunks_partition (total chunk_size : nat) (Hcs : 0 < chunk_size) :
  tiles 0 total (make_chunks total chunk_size)
  /\ covered (make_chunks total chunk_size) = seq 0 total
  /\ NoDup (covered (make_chunks total chunk_size))
  /\ Forall (fun '(_, c) => c <= chunk_size) (make_chunks total chunk_size)
  /\ length (make_chunks total chunk_size) = ceil_div total chunk_size
  /\ (total = 0 -> make_chunks total chunk_size = []).
Proof.
  unfold make_chunks.
  destruct (make_chunks_go_spec chunk_size total 0 total Hcs (le_n _))
    as (Ht & Hc & Hf & Hl).
  split; [exact Ht|]. split; [exact Hc|]. split; [rewrite Hc; apply NoDup_seq|].
  split; [exact Hf|]. split; [exact Hl|].
  intros ->. reflexivity.
Qed.

Lemma make_chunks_partition_witness :
  0 < 10 /\ make_chunks 25 10 = [(0, 10); (10, 10); (20, 5)]
  /\ tiles 0 25 (make_chunks 25 10) /\ length (make_chunks 25 10) = 3.
Proof.
  destruct (make_chunks_partition 25 10) as (Ht & _ & _ & _ & Hl & _); [lia|].
  split; [lia|]. split; [reflexivity|]. split; [exact Ht|].
  rewrite Hl. reflexivity.
Defined.

(* ------------------------------------------------------------------ *)
(** ** Strings: [pretty] digits, appends *)

Lemma str_app_nil (b : string) : "" +:+ b = b.
Proof. reflexivity. Qed.
Lemma str_app_cons (x : ascii) (a b : string) : String x a +:+ b = String x (a +:+ b).
Proof. reflexivity. Qed.

Lemma app_assoc_str (a b c : string) : (a +:+ b) +:+ c = a +:+ (b +:+ c).
Proof.
  induction a as [|x a IH]; [reflexivity|].
  rewrite !str_app_cons, IH. reflexivity.
Qed.

Lemma all_chars_app (p : ascii -> bool) (a b : string) :
  all_chars p (a +:+ b) = all_chars p a && all_chars p b.
Proof.
  induction a as [|x a IH]; [reflexivity|].
  rewrite str_app_cons. simpl. rewrite IH. by destruct (p x).
Qed.

Lemma pretty_N_char_digit (x : N) : is_digit (pretty_N_char x) = true.
Proof. unfold pretty_N_char. repeat case_match; reflexivity. Qed.

Lemma pretty_N_go_digits (x : N) (s : string) :
  all_chars is_digit s = true -> all_chars is_digit (pretty_N_go x s) = true.
Proof.
  revert s. induction (N.lt_wf_0 x) as [x _ IH]; intros s Hs.
  destruct (decide (x = 0)%N) as [->|Hx]; [by rewrite pretty_N_go_0|].
  rewrite pretty_N_go_step by lia. apply IH.
  - apply N.div_lt; lia.
  - simpl. by rewrite pretty_N_char_digit, Hs.
Qed.

Lemma pretty_N_go_length (x : N) (s : string) :
  String.length s <= String.length (pretty_N_go x s).
Proof.
  revert s. induction (N.lt_wf_0 x) as [x _ IH]; intros s.
  destruct (decide (x = 0)%N) as [->|Hx]; [by rewrite pretty_N_go_0|].
  rewrite pretty_N_go_step by lia.
  etrans; [|apply IH; apply N.div_lt; lia]. simpl. lia.
Qed.

(** [str(n)] is a non-empty run of decimal digits. *)
Lemma pretty_nat_digits (n : nat) :
  all_chars is_digit (pretty n) = true /\ pretty n <> "".
Proof.
  unfold pretty, pretty_nat, pretty, pretty_N. case_decide; [done|].
  split; [by apply pretty_N_go_digits|].
  intros Heq. destruct (decide (N.of_nat n = 0)%N) as [|Hn]; [done|].
  rewrite pretty_N_go_step in Heq by lia.
  pose proof (pretty_N_go_length (N.of_nat n `div` 10)
                (String (pretty_N_char (N.of_nat n `mod` 10)) "")) as Hl.
  rewrite Heq in Hl. simpl in Hl. lia.
Qed.

Lemma suffix_digits (k : nat) : all_chars is_digit (suffix k) = true.
Proof. unfold suffix. case_decide; [done|]. apply pretty_nat_digits. Qed.

Lemma suffix_inj (j k : nat) : suffix j = suffix k -> j = k.
Proof.
  unfold suffix. intros H. repeat case_decide; subst; try done.
  - by destruct (pretty_nat_digits k).
  - by destruct (pretty_nat_digits j).
  - by apply (inj pretty).
Qed.

Lemma digit_alnum (s : string) :
  all_chars is_digit s = true -> all_chars is_alnum s = true.
Proof.
  induction s as [|c s IH]; simpl; [done|].
  intros [Hc Hs]%andb_prop. rewrite IH by done. unfold is_alnum. rewrite Hc.
  by rewrite orb_true_r.
Qed.

Lemma strip_non_alnum_alnum (s : string) : all_chars is_alnum (strip_non_alnum s) = true.
Proof.
  induction s as [|c s IH]; simpl; [done|].
  destruct (is_alnum c) eqn:Hc; simpl; [by rewrite Hc, IH|done].
Qed.

(* ------------------------------------------------------------------ *)
(** ** Schema derivation *)

Lemma is_ident_app (s t : string) :
  is_ident s = true -> all_chars is_alnum t = true -> is_ident (s +:+ t) = true.
Proof.
  destruct s as [|c s]; [done|]. rewrite str_app_cons. simpl.
  intros [Hc Hs]%andb_prop Ht. rewrite Hc, all_chars_app, Hs, Ht. done.
Qed.

Lemma safe_name_of_eq (nam : string) (it : nat) :
  fst (safe_name_of nam it) =
  (let s := strip_non_alnum nam in
   let s := if decide (s = "") then "unnamed" +:+ pretty it else s in
   if starts_with_digit s then "num" +:+ s else s).
Proof. unfold safe_name_of. by case_decide. Qed.

Lemma is_ident_cons (c : ascii) (r : string) :
  is_ident (String c r) = is_alpha c && all_chars is_alnum r.
Proof. reflexivity. Qed.

Lemma safe_name_ident (nam : string) (it : nat) :
  is_ident (fst (safe_name_of nam it)) = true.
Proof.
  rewrite safe_name_of_eq. cbv zeta.
  pose proof (strip_non_alnum_alnum nam) as Hal.
  destruct (strip_non_alnum nam) as [|c r] eqn:Hs.
  - rewrite decide_True by done.
    change (is_ident (String "u" ("nnamed" +:+ pretty it)) = true).
    rewrite is_ident_cons, all_chars_app.
    rewrite (digit_alnum _ (proj1 (pretty_nat_digits it))). reflexivity.
  - rewrite decide_False by done.
    simpl in Hal. apply andb_prop in Hal as [Hc Hr].
    unfold starts_with_digit. destruct (is_digit c) eqn:Hd.
    + change (is_ident (String "n" ("um" +:+ String c r)) = true).
      rewrite is_ident_cons, all_chars_app. simpl. rewrite Hc, Hr. reflexivity.
    + rewrite is_ident_cons, Hr, andb_true_r.
      unfold is_alnum in Hc. rewrite Hd, orb_false_r in Hc. exact Hc.
Qed.

Lemma safe_name_counter (nam : string) (it : nat) :
  snd (safe_name_of nam it) = it + (if decide (strip_non_alnum nam = "") then 1 else 0).
Proof. unfold safe_name_of. case_decide; simpl; lia. Qed.



Lemma find_suffix_spec (e : string) (rs : list string) (fuel k0 : nat) :
  k0 <= find_suffix fuel e rs k0
  /\ (forall j, k0 <= j < find_suffix fuel e rs k0 -> e +:+ suffix j ∈ rs)
  /\ (e +:+ suffix (find_suffix fuel e rs k0) ∉ rs \/ find_suffix fuel e rs k0 = k0 + fuel).
Proof.
  revert k0. induction fuel as [|fuel IH]; intros k0; simpl.
  - split; [lia|]. split; [intros; lia|]. right; lia.
  - case_decide as Hin.
    + destruct (IH (S k0)) as (Hle & Hall & Hend).
      split; [lia|]. split.
      * intros j Hj. destruct (decide (j = k0)) as [->|]; [done|]. apply Hall; lia.
      * destruct Hend; [left; done|right; lia].
    + split; [lia|]. split; [intros; lia|]. left; done.
Qed.

Lemma NoDup_map_injective {A B} (f : A -> B) (l : list A) :
  (forall x y, f x = f y -> x = y) -> List.NoDup l -> List.NoDup (map f l).
Proof.
  intros Hf Hl. induction Hl as [|x l Hx Hl IH]; simpl; constructor; [|done].
  intros (y & Hy & Hyl)%in_map_iff. apply Hf in Hy. subst. done.
Qed.

(** The [while] loop stops at a suffix not yet used, all smaller ones being
    taken. *)
Lemma find_suffix_fresh (e : string) (rs : list string) :
  (forall j, j < find_suffix (S (length rs)) e rs 0 -> e +:+ suffix j ∈ rs)
  /\ e +:+ suffix (find_suffix (S (length rs)) e rs 0) ∉ rs.
Proof.
  destruct (find_suffix_spec e rs (S (length rs)) 0) as (_ & Hall & Hend).
  split; [intros j Hj; apply Hall; lia|].
  destruct Hend as [|Hk]; [done|]. exfalso.
  assert (length (map (fun j => e +:+ suffix j) (seq 0 (S (length rs)))) <= length rs)
    as Hlen.
  { apply NoDup_incl_length.
    - apply NoDup_map_injective; [|apply seq_NoDup].
      intros x y Hxy. apply suffix_inj. by apply (inj (String.append e)).
    - intros x (j & <- & Hj%in_seq)%in_map_iff. apply list_elem_of_In, Hall. lia. }
  rewrite length_map, length_seq in Hlen. lia.
Qed.

Lemma make_recordset_go_fst_cons (nam : string) (vs : list cell)
    (rest : list (string * list cell)) (rs : list string) (it : nat) :
  fst (make_recordset_go ((nam, vs) :: rest) rs it) =
  fst (make_recordset_go rest
         (rs ++ [("STRING " +:+ fst (safe_name_of nam it)) +:+
                 suffix (find_suffix (S (length rs))
                           ("STRING " +:+ fst (safe_name_of nam it)) rs 0)])
         (snd (safe_name_of nam it))).
Proof.
  cbn [make_recordset_go]. unfold get_type.
  destruct (safe_name_of nam it) as [safe it']. cbn [fst snd].
  change ("STRING" +:+ " " +:+ safe) with ("STRING " +:+ safe).
  destruct (make_recordset_go rest _ it'). reflexivity.
Qed.

Lemma make_recordset_go_fst_app (pre rest : list (string * list cell))
    (rs : list string) (it : nat) :
  fst (make_recordset_go (pre ++ rest) rs it) =
  fst (make_recordset_go rest (fst (make_recordset_go pre rs it))
                              (it + anon_count (map fst pre))).
Proof.
  revert rs it. induction pre as [|[nam vs] pre IH]; intros rs it; simpl app.
  - simpl. by rewrite Nat.add_0_r.
  - rewrite !make_recordset_go_fst_cons, IH, safe_name_counter. simpl.
    do 2 f_equal. lia.
Qed.

Lemma make_recordset_go_fst_nil (rs : list string) (it : nat) :
  fst (make_recordset_go [] rs it) = rs.
Proof. reflexivity. Qed.

Lemma make_recordset_go_inv (cols : list (string * list cell)) (rs : list string) (it : nat) :
  entries_ok rs ->
  entries_ok (fst (make_recordset_go cols rs it))
  /\ exists added, fst (make_recordset_go cols rs it) = rs ++ added
                   /\ length added = length cols.
Proof.
  revert rs it. induction cols as [|[nam vs] cols IH]; intros rs it Hok.
  - split; [done|]. exists []. split; [by rewrite app_nil_r|done].
  - rewrite make_recordset_go_fst_cons.
    set (e := "STRING " +:+ fst (safe_name_of nam it)).
    set (k := find_suffix (S (length rs)) e rs 0).
    destruct (find_suffix_fresh e rs) as [_ Hfresh]. fold k in Hfresh.
    destruct (IH (rs ++ [e +:+ suffix k]) (snd (safe_name_of nam it))) as [Hok' (added & Hadd & Hlen)].
    { destruct Hok as [Hnd Hall]. split.
      - apply NoDup_app. split; [done|]. split; [|apply NoDup_singleton].
        intros x Hx ->%list_elem_of_singleton. done.
      - intros x [Hx | ->%list_elem_of_singleton]%elem_of_app; [by apply Hall|].
        exists (fst (safe_name_of nam it) +:+ suffix k). split.
        + unfold e. by rewrite app_assoc_str.
        + apply is_ident_app; [apply safe_name_ident|apply digit_alnum, suffix_digits]. }
    split; [done|]. exists ((e +:+ suffix k) :: added). split.
    + rewrite Hadd, <- app_assoc. reflexivity.
    + simpl. by rewrite Hlen.
Qed.

Lemma entries_ok_nil : entries_ok [].
Proof. split; [constructor|]. intros e He. inversion He. Qed.

(** Claim C6 (as amended). The record set [make_recordset] derives for
    [send_file_internal] has one [STRING <name>] entry per column, in column
    order; the entry of a column is its name stripped to [[A-Za-z0-9]],
    replaced by [unnamed<N>] ([N] the number of earlier columns whose name
    strips to nothing) when empty, prefixed with [num] when it starts with a
    digit, then given the first suffix among [""], [1], [2], ... that makes
    the entry differ from every earlier entry; the entries are pairwise
    distinct and every name matches [^[A-Za-z][A-Za-z0-9]*$].  The record set
    [spray_file] uses ([_make_record_set]) is each distinct column name
    unchanged, followed by [ STRING]. *)
Theorem make_recordset_schema (df : frame) :
  length (record_entries df) = length (columns df)
  /\ NoDup (record_entries df)
  /\ (forall e, e ∈ record_entries df ->
        exists name, e = "STRING " +:+ name /\ is_ident name = true)
  /\ (forall pre nam vs post, columns df = pre ++ (nam, vs) :: post ->
        let s := strip_non_alnum nam in
        let s := if decide (s = "") then "unnamed" +:+ pretty (anon_count (map fst pre))
                 else s in
        let name := if starts_with_digit s then "num" +:+ s else s in
        exists k,
          record_entries df !! length pre = Some ("STRING " +:+ name +:+ suffix k)
          /\ (forall j, j < k ->
                "STRING " +:+ name +:+ suffix j ∈ take (length pre) (record_entries df))
          /\ "STRING " +:+ name +:+ suffix k ∉ take (length pre) (record_entries df))
  /\ spray_make_record_set df =
     join ";" (map (fun col => col +:+ " STRING") (dedup_first [] (map fst (columns df)))).
Proof.
  unfold record_entries.
  destruct (make_recordset_go_inv (columns df) [] 0 entries_ok_nil)
    as [[Hnd Hall] (added & Hadd & Hlen)].
  split; [rewrite Hadd; exact Hlen|].
  split; [done|]. split; [done|]. split; [|reflexivity].
  intros pre nam vs post Hcols. cbv zeta.
  rewrite <- safe_name_of_eq.
  rewrite Hcols, make_recordset_go_fst_app, Nat.add_0_l, make_recordset_go_fst_cons.
  destruct (make_recordset_go_inv pre [] 0 entries_ok_nil)
    as [_ (pre_added & Hpre & Hprelen)].
  rewrite Hpre, app_nil_l.
  set (e := "STRING " +:+ fst (safe_name_of nam (anon_count (map fst pre)))).
  set (R := pre_added ++ [e +:+ suffix (find_suffix (S (length pre_added)) e pre_added 0)]).
  destruct (make_recordset_go_inv post R (snd (safe_name_of nam (anon_count (map fst pre)))))
    as [_ (post_added & Hpost & _)].
  { (* only the shape of the result is used *)
    destruct (make_recordset_go_inv (pre ++ [(nam, vs)]) [] 0 entries_ok_nil) as [Hok _].
    rewrite make_recordset_go_fst_app, Nat.add_0_l, Hpre, app_nil_l,
      make_recordset_go_fst_cons in Hok.
    exact Hok. }
  rewrite Hpost. unfold R.
  destruct (find_suffix_fresh e pre_added) as [Hless Hfresh].
  exists (find_suffix (S (length pre_added)) e pre_added 0).
  rewrite <- Hprelen.
  assert (Htake : take (length pre_added)
                    ((pre_added ++ [e +:+ suffix (find_suffix (S (length pre_added)) e pre_added 0)])
                     ++ post_added) = pre_added).
  { rewrite <- app_assoc, take_app_length. reflexivity. }
  rewrite Htake. simpl in e. unfold e. rewrite !app_assoc_str.
  fold e. rewrite <- !app_assoc_str. fold e.
  split; [|split].
  - rewrite <- app_assoc, lookup_app_r by lia. rewrite Nat.sub_diag. reflexivity.
  - exact Hless.
  - exact Hfresh.
Qed.

(** Claim C6, counterexample: [spray_file]'s record set keeps a column named
    [2 Cost!] as it is, a name that is not an identifier. *)
Lemma spray_record_set_unsanitised :
  spray_make_record_set (mk_frame [0] [("2 Cost!", [Some "1"])]) = "2 Cost! STRING"
  /\ is_ident "2 Cost!" = false.
Proof. split; reflexivity. Qed.

(* ------------------------------------------------------------------ *)
(** ** String cells *)

Lemma lower_empty : lower "" = "".
Proof. reflexivity. Qed.

Lemma normalise_cell_eq (c : cell) :
  normalise_cell c =
  Some ("'" +:+ escape_quotes (if decide (lower (astype_str c) ∈ ["nan"; "na"; "null"])
                               then "" else astype_str c) +:+ "'").
Proof.
  unfold normalise_cell, blank_if.
  destruct (decide (lower (astype_str c) = "nan")) as [Hnan|Hnan].
  { rewrite lower_empty, !decide_False by done.
    rewrite decide_True; [done|]. rewrite Hnan. left. }
  destruct (decide (lower (astype_str c) = "na")) as [Hna|Hna].
  { rewrite lower_empty, decide_False by done.
    rewrite decide_True; [done|]. rewrite Hna. right. left. }
  destruct (decide (lower (astype_str c) = "null")) as [Hnull|Hnull].
  { rewrite decide_True; [done|]. rewrite Hnull. right. right. left. }
  rewrite decide_False; [done|].
  intros Hin. apply list_elem_of_In in Hin. simpl in Hin. intuition congruence.
Qed.

Lemma make_recordset_go_snd (cols : list (string * list cell)) (rs : list string) (it : nat) :
  snd (make_recordset_go cols rs it) = map (fun '(n, vs) => (n, map normalise_cell vs)) cols.
Proof.
  revert rs it. induction cols as [|[nam vs] cols IH]; intros rs it; [done|].
  cbn [make_recordset_go]. unfold get_type.
  destruct (safe_name_of nam it) as [safe it'].
  destruct (make_recordset_go cols _ it') as [rs' cols'] eqn:E.
  specialize (IH (rs ++ [("STRING" +:+ " " +:+ safe) +:+
                         suffix (find_suffix (S (length rs)) ("STRING" +:+ " " +:+ safe) rs 0)]) it').
  rewrite E in IH. simpl in IH |- *. by rewrite IH.
Qed.

(** Claim C7 (as amended). [send_file_internal] rewrites every cell of a
    [STRING] column (all columns are [STRING]) to its text with the
    case-insensitive markers [nan], [na], [null] (and missing values, which
    print as [nan]) blanked, its single quotes escaped as [\'] and single
    quotes around it; [O'Brien] becomes ['O\'Brien'].  On a column holding
    [NULL] and [O'Brien], the single direct submission of
    [send_file_internal] carries the rows [{''}] and [{'O\'Brien'}], while
    [spray_file] sprays ['NULL'] and ['O\'Brien']: it does not blank the
    marker. *)
Theorem string_cells_serialised (df : frame) (c : cell) :
  columns (fst (make_recordset df)) = map (fun '(n, vs) => (n, map normalise_cell vs)) (columns df)
  /\ normalise_cell c =
     Some ("'" +:+ escape_quotes (if decide (lower (astype_str c) ∈ ["nan"; "na"; "null"])
                                  then "" else astype_str c) +:+ "'")
  /\ normalise_cell (Some "O'Brien") = Some "'O\'Brien'"
  /\ trace (snd (send_file_internal all_ok_gateway (fun _ => false) null_quote_frame "t"
                                    false true 10 [] (mk_world [] [])))
     = [SyntaxCheck (send_data_script "{''},{'O\'Brien'}" "STRING c" "t" false);
        RunEcl (send_data_script "{''},{'O\'Brien'}" "STRING c" "t" false)]
  /\ trace (snd (spray_file all_ok_gateway 0 "t" false 10 1 (mk_world [] [null_quote_frame])))
     = [RunEcl (spray_script "{0,'NULL'},{1,'O\'Brien'}" "c STRING" "TEMPHPYCC::tfrom0to2" false);
        RunEcl (concat_script ["TEMPHPYCC::tfrom0to2"] "t" "c STRING" false);
        DeleteLogical "TEMPHPYCC::tfrom0to2"].
Proof.
  split.
  { unfold make_recordset. pose proof (make_recordset_go_snd (columns df) [] 0) as H.
    destruct (make_recordset_go (columns df) [] 0). simpl in *. exact H. }
  split; [apply normalise_cell_eq|].
  split; [reflexivity|].
  split; vm_compute; reflexivity.
Qed.

(** Claim C7, counterexample: [spray_file] serialises a string cell
    [NULL] as ['NULL'], not as the empty string. *)
Lemma spray_null_text_kept :
  fst (_stringify_rows 0 0 0 (mk_world [] [mk_frame [0] [("c", [Some "NULL"])]]))
  = Ok "{0,'NULL'}".
Proof. vm_compute. reflexivity. Qed.

(* ------------------------------------------------------------------ *)
(** ** Row serialisation *)

(** Claim C2, failing input: on a three-row frame with the default row
    labels, the range [(start, count) = (0, 1)] serialises two rows, rows 0
    and 1, each with its row label in front. *)
Theorem stringify_rows_extra_row :
  fst (_stringify_rows 0 0 1
         (mk_world [] [mk_frame [0; 1; 2] [("name", [Some "x"; Some "y"; Some "z"])]]))
  = Ok "{0,'x'},{1,'y'}".
Proof. vm_compute. reflexivity. Qed.

(* ------------------------------------------------------------------ *)
(** ** The caller's DataFrame *)

Lemma keeps_ret {A} (n : nat) (a : A) : keeps n (ret a).
Proof. intros w Hw. done. Qed.

Lemma keeps_raise {A} (n : nat) (e : exn) : keeps n (@raise A e).
Proof. intros w Hw. done. Qed.

Lemma keeps_emit (n : nat) (e : event) : keeps n (emit e).
Proof. intros w Hw. done. Qed.

Lemma keeps_read (n l : nat) : keeps n (read l).
Proof. intros w Hw. done. Qed.

Lemma keeps_write (n l : nat) (f : frame) : n <= l -> keeps n (write l f).
Proof.
  intros Hl w Hw. simpl. rewrite length_insert. split; [done|].
  rewrite take_insert. by rewrite decide_False by lia.
Qed.

Lemma keeps_bind {A B} (n : nat) (m : M A) (k : A -> M B) :
  keeps n m -> (forall a, keeps n (k a)) -> keeps n (bind m k).
Proof.
  intros Hm Hk w Hw. unfold bind.
  destruct (Hm w Hw) as [Hl Ht].
  destruct (m w) as [[a|e] w'] eqn:E; simpl in *; [|done].
  destruct (Hk a w' Hl) as [Hl' Ht']. split; [done|]. by rewrite Ht', Ht.
Qed.

(** What a freshly allocated object is used for cannot touch older ones. *)
Lemma keeps_bind_alloc {B} (n : nat) (f : frame) (k : nat -> M B) :
  (forall l, n <= l -> keeps n (k l)) -> keeps n (bind (alloc f) k).
Proof.
  intros Hk w Hw. unfold bind. simpl.
  destruct (Hk (length (heap w)) Hw (mk_world (trace w) (heap w ++ [f]))) as [Hl Ht].
  { simpl. rewrite length_app. lia. }
  split; [done|]. rewrite Ht. simpl. by apply take_app_le.
Qed.

Lemma keeps_mapM {A B} (n : nat) (f : A -> M B) (xs : list A) :
  (forall x, keeps n (f x)) -> keeps n (mapM f xs).
Proof.
  intros Hf. induction xs as [|x xs IH]; simpl.
  - apply keeps_ret.
  - apply keeps_bind; [done|]. intros y. apply keeps_bind; [done|]. intros ys.
    apply keeps_ret.
Qed.

Lemma keeps_submit_task {A} (n : nat) (m : M A) : keeps n m -> keeps n (submit_task m).
Proof.
  intros Hm w Hw. unfold submit_task. destruct (Hm w Hw) as [Hl Ht].
  destruct (m w) as [r w'] eqn:E. done.
Qed.

Lemma keeps_run_ecl_string (stderr_of : string -> string) (n : nat) (s : string) :
  keeps n (run_ecl_string stderr_of s).
Proof.
  unfold run_ecl_string. apply keeps_bind; [apply keeps_emit|]. intros _.
  case_decide; [apply keeps_ret|apply keeps_raise].
Qed.

Lemma keeps_stringify_rows (n df start_row num_rows : nat) :
  keeps n (_stringify_rows df start_row num_rows).
Proof.
  unfold _stringify_rows.
  apply keeps_bind; [apply keeps_read|]. intros d.
  apply keeps_bind_alloc. intros l Hl.
  apply keeps_bind.
  { apply keeps_mapM. intros i. apply keeps_bind; [apply keeps_read|].
    intros f. by apply keeps_write. }
  intros _. apply keeps_bind; [apply keeps_read|]. intros f.
  apply keeps_bind; [by apply keeps_write|]. intros _.
  apply keeps_bind; [apply keeps_read|]. intros f'. apply keeps_ret.
Qed.

Lemma keeps_spray_file (stderr_of : string -> string) (n src : nat) (logical_file : string)
    (overwrite : bool) (chunk_size max_workers : nat) :
  keeps n (spray_file stderr_of src logical_file overwrite chunk_size max_workers).
Proof.
  unfold spray_file.
  apply keeps_bind; [apply keeps_read|]. intros df.
  apply keeps_bind.
  { apply keeps_mapM. intros [[s c] name].
    apply keeps_bind; [apply keeps_stringify_rows|]. intros row.
    apply keeps_submit_task. apply keeps_run_ecl_string. }
  intros _. apply keeps_bind; [apply keeps_run_ecl_string|]. intros _.
  apply keeps_bind; [|intros _; apply keeps_ret].
  apply keeps_mapM. intros name. apply keeps_emit.
Qed.

(** Claim C9. [spray_file] on a DataFrame passed by the caller leaves that
    object, and every other object that existed before the call, as it was:
    the slicing, escaping, null filling and index reset of
    [_stringify_rows] all act on the new object [df.loc[...]] returns. *)
Theorem spray_file_keeps_caller_frame (stderr_of : string -> string) (src : nat)
    (logical_file : string) (overwrite : bool) (chunk_size max_workers : nat) (w : world)
    (Hsrc : src < length (heap w)) :
  heap (snd (spray_file stderr_of src logical_file overwrite chunk_size max_workers w)) !! src
  = heap w !! src
  /\ take (length (heap w))
       (heap (snd (spray_file stderr_of src logical_file overwrite chunk_size max_workers w)))
     = heap w.
Proof.
  destruct (keeps_spray_file stderr_of (length (heap w)) src logical_file overwrite
              chunk_size max_workers w (le_n _)) as [_ Ht].
  rewrite (take_ge (heap w)) in Ht by lia.
  split; [|exact Ht].
  rewrite <- Ht, lookup_take. by rewrite decide_True.
Qed.

Lemma spray_file_keeps_caller_frame_witness :
  0 < length (heap (mk_world [] [caller_frame]))
  /\ heap (snd (spray_file (fun _ => "") 0 "target" true 2 3 (mk_world [] [caller_frame]))) !! 0
     = Some caller_frame.
Proof.
  split; [simpl; lia|].
  destruct (spray_file_keeps_caller_frame (fun _ => "") 0 "target" true 2 3
              (mk_world [] [caller_frame])) as [H _]; [simpl; lia|].
  rewrite H. reflexivity.
Defined.

(* ------------------------------------------------------------------ *)
(** ** The spray orchestration *)





Lemma bind_ok {A B} (m : M A) (k : A -> M B) (w w1 : world) (a : A) :
  m w = (Ok a, w1) -> bind m k w = k a w1.
Proof. intros E. unfold bind. by rewrite E. Qed.





Lemma deletes_app (a b : list event) : deletes (a ++ b) = deletes a ++ deletes b.
Proof.
  induction a as [|e a IH]; simpl; [done|].
  destruct e; simpl; by rewrite IH.
Qed.

Lemma deletes_map_delete (names : list string) : deletes (map DeleteLogical names) = names.
Proof. induction names as [|n names IH]; simpl; [done|by rewrite IH]. Qed.






(* ------------------------------------------------------------------ *)
(** ** The chunked path of [sendfiles] *)

Lemma emits_only_ret {A} (P : event -> Prop) (a : A) : emits_only P (ret a).
Proof. intros w. exists []. by rewrite app_nil_r. Qed.

Lemma emits_only_raise {A} (P : event -> Prop) (e : exn) : emits_only P (@raise A e).
Proof. intros w. exists []. by rewrite app_nil_r. Qed.

Lemma emits_only_emit (P : event -> Prop) (e : event) : P e -> emits_only P (emit e).
Proof. intros He w. exists [e]. split; [done|by constructor]. Qed.

Lemma emits_only_bind {A B} (P : event -> Prop) (m : M A) (k : A -> M B) :
  emits_only P m -> (forall a, emits_only P (k a)) -> emits_only P (bind m k).
Proof.
  intros Hm Hk w. destruct (Hm w) as (evs1 & T1 & F1). unfold bind.
  destruct (m w) as [[a|e] w1]; simpl in T1.
  - destruct (Hk a w1) as (evs2 & T2 & F2). exists (evs1 ++ evs2).
    rewrite T2, T1, <- app_assoc. split; [done|]. by apply Forall_app.
  - by exists evs1.
Qed.

Lemma emits_only_mapM {A B} (P : event -> Prop) (f : A -> M B) (xs : list A) :
  (forall x, emits_only P (f x)) -> emits_only P (mapM f xs).
Proof.
  intros Hf. induction xs as [|x xs IH]; simpl; [apply emits_only_ret|].
  apply emits_only_bind; [done|]. intros y. apply emits_only_bind; [done|]. intros ys.
  apply emits_only_ret.
Qed.

Lemma emits_only_weaken {A} (P Q : event -> Prop) (m : M A) :
  (forall e, P e -> Q e) -> emits_only P m -> emits_only Q m.
Proof.
  intros HPQ Hm w. destruct (Hm w) as (evs & T & F). exists evs.
  split; [done|]. by eapply Forall_impl.
Qed.

Lemma emits_only_run_script_internal (stderr_of : string -> string)
    (syntax_error : string -> bool) (s : string) :
  emits_only (fun e => e = SyntaxCheck s \/ e = RunEcl s)
             (run_script_internal stderr_of syntax_error s).
Proof.
  unfold run_script_internal.
  apply emits_only_bind; [apply emits_only_emit; by left|]. intros _.
  destruct (syntax_error s); [apply emits_only_raise|].
  apply emits_only_bind; [apply emits_only_emit; by right|]. intros _.
  case_decide; [apply emits_only_ret|apply emits_only_raise].
Qed.

Lemma emits_only_make_rows (P : event -> Prop) (df : frame) (start end_ : nat) :
  emits_only P (make_rows df start end_).
Proof.
  unfold make_rows. destruct (index (loc_slice df start end_));
    [apply emits_only_raise|apply emits_only_ret].
Qed.

(** C5 (code bug). In the chunked path of [send_file_internal], every
    submission [_send_file_in_chunks] makes writes to the target name
    itself: each event it adds is the syntax check or the run of a
    [send_data] script whose output file is [target_name], or the final
    concatenation, which reads the [TEMPHPYCC::] names no submission wrote. *)
Theorem send_file_in_chunks_targets (stderr_of : string -> string)
    (syntax_error : string -> bool) (df : frame) (target_name : string)
    (break_positions : list nat) (record_set : string) (overwrite delete : bool) (w : world) :
  let bounds := zip (0 :: map S (inner break_positions))
                    (inner break_positions ++ [length (index df)]) in
  let names := map (fun '(start, end_) => temp_name target_name start end_) bounds in
  exists evs,
    trace (snd (_send_file_in_chunks stderr_of syntax_error df target_name break_positions
                                     record_set overwrite delete w))
    = trace w ++ evs
    /\ Forall (fun e =>
                 (exists rows,
                    e = SyntaxCheck (send_data_script rows record_set target_name overwrite)
                    \/ e = RunEcl (send_data_script rows record_set target_name overwrite))
                 \/ e = RunEcl (concat_files_script names target_name record_set overwrite delete))
              evs.
Proof.
  cbv zeta. revert w.
  unfold _send_file_in_chunks. cbv zeta.
  apply emits_only_bind.
  - apply emits_only_mapM. intros [start end_].
    apply emits_only_bind; [apply emits_only_make_rows|]. intros rows.
    eapply emits_only_weaken; [|apply emits_only_run_script_internal].
    intros e He. left. eexists. exact He.
  - intros _. apply emits_only_emit. by right.
Qed.

(** C5: a three-row upload in chunks of two through [send_file_internal]
    submits both chunks to the target [t] and then concatenates two
    temporaries that were never written. *)
Lemma sendfiles_chunks_skip_temporaries :
  trace (snd (send_file_internal all_ok_gateway (fun _ => false) abc_frame "t" false true 2
                                 [0; 1; 3] (mk_world [] [])))
  = [SyntaxCheck (send_data_script "{'x'},{'y'}" "STRING name" "t" false);
     RunEcl (send_data_script "{'x'},{'y'}" "STRING name" "t" false);
     SyntaxCheck (send_data_script "{'z'}" "STRING name" "t" false);
     RunEcl (send_data_script "{'z'}" "STRING name" "t" false);
     RunEcl (concat_files_script ["TEMPHPYCC::tfrom0to1"; "TEMPHPYCC::tfrom2to3"] "t"
                                 "STRING name" false true)].
Proof. vm_compute. reflexivity. Qed.

(* ------------------------------------------------------------------ *)
(** ** Small uploads *)


(* ------------------------------------------------------------------ *)
(** ** [save_outputs] with no file names *)

Lemma bind_exc {A B} (m : M A) (k : A -> M B) (w w1 : world) (e : exn) :
  m w = (Exc e, w1) -> bind m k w = (Exc e, w1).
Proof. intros E. unfold bind. by rewrite E. Qed.

Lemma run_ecl_script_eq (stderr_of stdout_of : string -> string) (script : string) (w : world) :
  run_ecl_script stderr_of stdout_of script w
  = (if decide (stderr_of script = "") then Ok (stdout_of script)
     else Exc (RuntimeError (stderr_of script)),
     mk_world (trace w ++ [RunEcl script]) (heap w)).
Proof. unfold run_ecl_script, bind, emit. simpl. by case_decide. Qed.

Lemma mapM_parse_output (parse_xml : string -> res frame) (results : list (string * string))
    (w : world) :
  exists v, mapM (parse_output parse_xml) results w
            = (match first_parse_error parse_xml results with
               | Some e => Exc e
               | None => Ok v
               end, w).
Proof.
  revert w. induction results as [|[name xml] results IH]; intros w;
    cbn [mapM first_parse_error].
  - by exists [].
  - destruct (parse_xml xml) as [df|e] eqn:Ep.
    + assert (P : parse_output parse_xml (name, xml) w = (Ok (name, df), w))
        by (simpl; by rewrite Ep).
      rewrite (bind_ok _ _ _ _ _ P).
      destruct (IH w) as [v E].
      destruct (first_parse_error parse_xml results).
      * exists []. by rewrite (bind_exc _ _ _ _ _ E).
      * exists ((name, df) :: v). by rewrite (bind_ok _ _ _ _ _ E).
    + assert (P : parse_output parse_xml (name, xml) w = (Exc e, w))
        by (simpl; by rewrite Ep).
      exists []. by rewrite (bind_exc _ _ _ _ _ P).
Qed.

(** C10 (amended). [save_outputs] with [filenames] left at [None] first runs
    the script. If the run reports an error, that [RuntimeError] is raised.
    Otherwise the outputs are parsed, and the first parse error is raised if
    there is one; if there is none, a [TypeError] is raised when the missing
    list of names is paired with the output names. In every case the only
    event is the run of the script, and no file is written. *)
Theorem save_outputs_without_filenames (stderr_of stdout_of : string -> string)
    (find_datasets : string -> list (string * string)) (parse_xml : string -> res frame)
    (script directory : string) (prefix : option string) (w : world) :
  let r := save_outputs stderr_of stdout_of find_datasets parse_xml script directory None
                        prefix w in
  trace (snd r) = trace w ++ [RunEcl script]
  /\ fst r = (if decide (stderr_of script = "")
              then Exc (default TypeError
                          (first_parse_error parse_xml (find_datasets (stdout_of script))))
              else Exc (RuntimeError (stderr_of script))).
Proof.
  cbv zeta. unfold save_outputs.
  case_decide as Hs.
  - rewrite (bind_ok _ _ _ _ _ (eq_trans (run_ecl_script_eq _ _ _ _) (f_equal (fun x => (x, _)) (decide_True _ _ Hs)))).
    cbv zeta.
    destruct (mapM_parse_output parse_xml (find_datasets (stdout_of script))
                (mk_world (trace w ++ [RunEcl script]) (heap w))) as [v E].
    destruct (first_parse_error parse_xml (find_datasets (stdout_of script))) as [e|].
    + rewrite (bind_exc _ _ _ _ _ E). done.
    + rewrite (bind_ok _ _ _ _ _ E). cbv zeta. unfold bind at 1, raise. done.
  - rewrite (bind_exc _ _ _ _ _ (eq_trans (run_ecl_script_eq _ _ _ _) (f_equal (fun x => (x, _)) (decide_False _ _ Hs)))).
    done.
Qed.

(** C10: when the run itself reports an error, [save_outputs] with no file
    names raises that [RuntimeError], not a [TypeError]. *)
Lemma save_outputs_run_error_first :
  fst (save_outputs failing_gateway (fun _ => "") (fun _ => []) (fun _ => Exc TypeError)
                    "OUTPUT(1);" "out" None None (mk_world [] []))
  = Exc (RuntimeError "boom").
Proof. vm_compute. reflexivity. Qed.

(* ================================================================== *)
(** * Further properties of the embedded code *)

(* ------------------------------------------------------------------ *)
(** ** Temporary names *)

Lemma list_ascii_app (a b : string) :
  list_ascii_of_string (a +:+ b) = list_ascii_of_string a ++ list_ascii_of_string b.
Proof.
  induction a as [|c a IH]; [done|].
  rewrite str_app_cons. simpl. by rewrite IH.
Qed.

Lemma list_ascii_inj (a b : string) : list_ascii_of_string a = list_ascii_of_string b -> a = b.
Proof.
  intros E. rewrite <- (string_of_list_ascii_of_string a), <- (string_of_list_ascii_of_string b).
  by rewrite E.
Qed.

Lemma all_chars_Forall (p : ascii -> bool) (s : string) :
  all_chars p s = true -> Forall (fun c => p c = true) (list_ascii_of_string s).
Proof.
  induction s as [|c s IH]; simpl; [constructor|].
  intros [Hc Hs]%andb_prop. constructor; auto.
Qed.

(** A maximal run of digits in front of a non-digit is determined. *)
Lemma digits_split (D D' X X' : list ascii) (c c' : ascii) :
  Forall (fun x => is_digit x = true) D -> Forall (fun x => is_digit x = true) D' ->
  is_digit c = false -> is_digit c' = false ->
  D ++ c :: X = D' ++ c' :: X' -> D = D' /\ X = X'.
Proof.
  revert D'. induction D as [|d D IH]; intros D' HD HD' Hc Hc' E.
  - destruct D' as [|d' D']; simpl in E.
    + by injection E as -> ->.
    + injection E as -> _. inversion HD'; congruence.
  - destruct D' as [|d' D']; simpl in E.
    + injection E as -> _. inversion HD; congruence.
    + injection E as -> E. inversion HD; inversion HD'; subst.
      destruct (IH D') as [-> ->]; auto.
Qed.

Lemma string_app_inj_l (p a b : string) : p +:+ a = p +:+ b -> a = b.
Proof. induction p as [|c p IH]; [done|]. rewrite !str_app_cons. intros E. injection E. auto. Qed.

Lemma string_app_inj_r (a b x : string) : a +:+ x = b +:+ x -> a = b.
Proof.
  intros E. apply (f_equal list_ascii_of_string) in E. rewrite !list_ascii_app in E.
  apply list_ascii_inj. by apply app_inv_tail in E.
Qed.

Lemma temp_name_rev (logical_file : string) (s e : nat) :
  rev (list_ascii_of_string (temp_name logical_file s e))
  = rev (list_ascii_of_string (pretty e)) ++ "o"%char :: "t"%char ::
    rev (list_ascii_of_string (pretty s)) ++ "m"%char :: "o"%char :: "r"%char :: "f"%char ::
    rev (list_ascii_of_string ("TEMPHPYCC::" +:+ logical_file)).
Proof.
  unfold temp_name. rewrite !list_ascii_app.
  rewrite !rev_app_distr. simpl. rewrite <- !app_assoc. reflexivity.
Qed.

Lemma pretty_rev_digits (n : nat) :
  Forall (fun x => is_digit x = true) (rev (list_ascii_of_string (pretty n))).
Proof. apply Forall_rev, all_chars_Forall, pretty_nat_digits. Qed.

(** The temporary names [TEMPHPYCC::<target>from<start>to<end>] of
    [spray_file] and [_send_file_in_chunks] never collide: the name
    determines the target, the start row and the end row. *)
Theorem temp_name_injective (logical_file logical_file' : string) (s s' e e' : nat) :
  temp_name logical_file s e = temp_name logical_file' s' e' ->
  logical_file = logical_file' /\ s = s' /\ e = e'.
Proof.
  intros E. apply (f_equal (fun x => rev (list_ascii_of_string x))) in E.
  rewrite !temp_name_rev in E.
  apply digits_split in E as [He E]; [|apply pretty_rev_digits..|done|done].
  apply (f_equal (@tail ascii)) in E. cbn [tail] in E.
  apply digits_split in E as [Hs E]; [|apply pretty_rev_digits..|done|done].
  apply (f_equal (fun l => tail (tail (tail l)))) in E. cbn [tail] in E.
  apply (f_equal (@rev ascii)) in He, Hs, E. rewrite !rev_involutive in He, Hs, E.
  apply list_ascii_inj in He, Hs, E.
  apply string_app_inj_l in E. apply (inj pretty) in He, Hs. done.
Qed.

Lemma temp_name_injective_witness :
  temp_name "t" 0 2 = temp_name "t" 0 2 /\ ("t" = "t" /\ 0 = 0 /\ 2 = 2).
Proof. split; [reflexivity|]. apply (temp_name_injective "t" "t" 0 0 2 2). reflexivity. Defined.

(* ------------------------------------------------------------------ *)
(** ** Quoting of string cells *)

Lemma escape_quotes_no_quote_head (s r : string) : escape_quotes s <> String "'" r.
Proof. destruct s as [|c s]; simpl; [done|]. case_decide; congruence. Qed.

Lemma escape_quotes_inj (s1 s2 : string) : escape_quotes s1 = escape_quotes s2 -> s1 = s2.
Proof.
  revert s2. induction s1 as [|c1 s1 IH]; intros [|c2 s2]; simpl.
  - done.
  - case_decide; congruence.
  - case_decide; congruence.
  - case_decide as H1; case_decide as H2; intros E; subst.
    + injection E as E. by rewrite (IH s2 E).
    + injection E as _ E. exfalso. by eapply escape_quotes_no_quote_head.
    + injection E as _ E. exfalso. by eapply escape_quotes_no_quote_head.
    + injection E as -> E. by rewrite (IH s2 E).
Qed.

(** [_stringify_rows] turns two cells of a [STRING] column into the same
    ECL literal exactly when their texts agree, a missing value counting as
    the empty text: the escaping of single quotes loses nothing. *)
Theorem spray_string_cell_same (c1 c2 : cell) :
  spray_string_cell c1 = spray_string_cell c2 <-> default "" c1 = default "" c2.
Proof.
  unfold spray_string_cell. split.
  - intros E. injection E as E. rewrite !str_app_nil in E.
    apply string_app_inj_r in E. by apply escape_quotes_inj.
  - intros ->. reflexivity.
Qed.

(* ------------------------------------------------------------------ *)
(** ** Record sets and normalisation *)

Lemma dedup_first_spec (seen xs : list string) :
  NoDup (dedup_first seen xs)
  /\ dedup_first seen xs `sublist_of` xs
  /\ (forall x, x ∈ dedup_first seen xs <-> x ∈ xs /\ x ∉ seen).
Proof.
  revert seen. induction xs as [|y xs IH]; intros seen; simpl.
  - split; [constructor|]. split; [done|]. intros x. split; [intros Hx; inversion Hx|].
    intros [Hx _]. inversion Hx.
  - case_decide as Hy.
    + destruct (IH seen) as (Hn & Hs & Hm). split; [done|]. split; [by apply sublist_cons|].
      intros x. rewrite Hm. split; [intros [Hx Hn']; split; [by right|done]|].
      intros [Hx Hn']. split; [|done]. apply elem_of_cons in Hx as [->|Hx]; [done|done].
    + destruct (IH (seen ++ [y])) as (Hn & Hs & Hm). split.
      { constructor; [|done]. rewrite Hm. intros [_ Hx]. apply Hx, elem_of_app. right.
        by apply list_elem_of_singleton. }
      split; [by apply sublist_skip|].
      intros x. rewrite elem_of_cons, Hm, elem_of_cons, elem_of_app, list_elem_of_singleton.
      split.
      * intros [->|[Hx Hn']]; [split; [by left|done]|]. split; [by right|]. tauto.
      * intros [[->|Hx] Hn']; [by left|]. destruct (decide (x = y)) as [->|Hne]; [by left|].
        right. split; [done|]. intros [?|?]; auto.
Qed.

(** [_make_record_set] lists each distinct column name once, in the order
    of first appearance, each typed [STRING]: two columns with the same
    name give one field. *)
Theorem spray_record_set_fields (df : frame) :
  let fields := dedup_first [] (map fst (columns df)) in
  spray_make_record_set df = join ";" (map (fun c => c +:+ " STRING") fields)
  /\ NoDup fields
  /\ fields `sublist_of` map fst (columns df)
  /\ (forall c, c ∈ fields <-> c ∈ map fst (columns df)).
Proof.
  cbv zeta. destruct (dedup_first_spec [] (map fst (columns df))) as (Hn & Hs & Hm).
  split; [reflexivity|]. split; [done|]. split; [done|].
  intros c. rewrite Hm. split; [tauto|]. intros Hc. split; [done|]. intros Hx. inversion Hx.
Qed.

(* ------------------------------------------------------------------ *)
(** ** The row ranges of [_send_file_in_chunks] *)

Lemma filter_seq_range (a b s len : nat) :
  filter (fun l => Is_true ((a <=? l) && (l <=? b))) (seq s len)
  = seq (Nat.max a s) (Nat.min (S b) (s + len) - Nat.max a s).
Proof.
  revert s. induction len as [|len IH]; intros s.
  - cbn [seq]. replace (Nat.min (S b) (s + 0) - Nat.max a s) with 0 by lia. done.
  - cbn [seq]. rewrite filter_cons.
    destruct (Nat.leb_spec a s), (Nat.leb_spec s b); cbn [andb].
    + rewrite decide_True by exact I. rewrite IH.
      replace (Nat.max a s) with s by lia.
      replace (Nat.min (S b) (s + S len) - s)
        with (S (Nat.min (S b) (S s + len) - Nat.max a (S s))) by lia.
      cbn [seq]. do 2 f_equal. lia.
    + rewrite decide_False by (intros []). rewrite IH.
      replace (Nat.min (S b) (S s + len) - Nat.max a (S s)) with 0 by lia.
      replace (Nat.min (S b) (s + S len) - Nat.max a s) with 0 by lia. done.
    + rewrite decide_False by (intros []). rewrite IH.
      replace (Nat.max a (S s)) with (Nat.max a s) by lia.
      f_equal. lia.
    + rewrite decide_False by (intros []). rewrite IH.
      replace (Nat.min (S b) (S s + len) - Nat.max a (S s)) with 0 by lia.
      replace (Nat.min (S b) (s + S len) - Nat.max a s) with 0 by lia. done.
Qed.

Lemma flat_map_zip_cons {A B C} (f : A * B -> list C) (x : A) (y : B) xs ys :
  flat_map f (zip (x :: xs) (y :: ys)) = f (x, y) ++ flat_map f (zip xs ys).
Proof. reflexivity. Qed.

Lemma chunk_ranges_cover (n a : nat) (bs : list nat) :
  StronglySorted lt bs -> Forall (fun b => a <= b < n) bs -> a <= n ->
  flat_map (fun '(s, e) => filter (fun l => Is_true ((s <=? l) && (l <=? e))) (seq 0 n))
           (zip (a :: map S bs) (bs ++ [n]))
  = seq a (n - a).
Proof.
  revert a. induction bs as [|b bs IH]; intros a Hs Hf Ha.
  - cbn [map app]. rewrite flat_map_zip_cons. cbv beta iota.
    rewrite app_nil_r, filter_seq_range. f_equal; lia.
  - inversion Hs as [|? ? Hs' Hlt]; subst. inversion Hf as [|? ? [Hab Hbn] Hf']; subst.
    cbn [map app]. rewrite flat_map_zip_cons. cbv beta iota.
    rewrite filter_seq_range, IH; [|done| |lia].
    + replace (Nat.max a 0) with a by lia. replace (Nat.min (S b) (0 + n)) with (S b) by lia.
      replace (n - a) with ((S b - a) + (n - S b)) by lia.
      rewrite seq_app. do 2 f_equal. lia.
    + apply Forall_forall. intros x Hx.
      pose proof (proj1 (Forall_forall _ _) Hlt x Hx).
      pose proof (proj1 (Forall_forall _ _) Hf' x Hx). simpl in *. lia.
Qed.

(** With the default row labels [0 .. len(df)-1] and strictly increasing
    inner break positions below [len(df)], the ranges
    [(start, end)] of [_send_file_in_chunks], sliced by [make_rows] with
    [df.loc[start:end, :]], select every row of the dataset exactly once and
    in order. *)
Theorem send_file_in_chunks_rows (df : frame) (break_positions : list nat)
    (Hlabels : index df = seq 0 (length (index df)))
    (Hsorted : StronglySorted lt (inner break_positions))
    (Hbelow : Forall (fun b => b < length (index df)) (inner break_positions)) :
  flat_map (fun '(start, end_) => index (loc_slice df start end_))
           (zip (0 :: map S (inner break_positions))
                (inner break_positions ++ [length (index df)]))
  = index df.
Proof.
  set (n := length (index df)) in *.
  transitivity (seq 0 (n - 0)); [|rewrite Nat.sub_0_r; by symmetry].
  rewrite <- (chunk_ranges_cover n 0 (inner break_positions)); [|done| |lia].
  - apply flat_map_ext. intros [s e]. unfold loc_slice. simpl. by rewrite Hlabels at 1.
  - eapply Forall_impl; [exact Hbelow|]. simpl. lia.
Qed.

Lemma send_file_in_chunks_rows_witness :
  index abc_frame = seq 0 (length (index abc_frame))
  /\ StronglySorted lt (inner [0; 1; 3])
  /\ Forall (fun b => b < length (index abc_frame)) (inner [0; 1; 3])
  /\ flat_map (fun '(start, end_) => index (loc_slice abc_frame start end_))
              (zip (0 :: map S (inner [0; 1; 3])) (inner [0; 1; 3] ++ [3]))
     = [0; 1; 2].
Proof.
  assert (Hs : StronglySorted lt (inner [0; 1; 3])) by (repeat constructor).
  assert (Hb : Forall (fun b => b < length (index abc_frame)) (inner [0; 1; 3]))
    by (repeat constructor; simpl; lia).
  split; [reflexivity|]. split; [exact Hs|]. split; [exact Hb|].
  exact (send_file_in_chunks_rows abc_frame [0; 1; 3] eq_refl Hs Hb).
Defined.

(* ------------------------------------------------------------------ *)
(** ** Failures in the chunked path of [sendfiles] *)

Lemma run_script_internal_eq (stderr_of : string -> string) (syntax_error : string -> bool)
    (s : string) (w : world) :
  run_script_internal stderr_of syntax_error s w
  = if syntax_error s
    then (Exc (EnvironmentError s), mk_world (trace w ++ [SyntaxCheck s]) (heap w))
    else (if decide (stderr_of s = "") then Ok tt
          else Exc (RuntimeError ("Script returned an error: " +:+ stderr_of s)),
          mk_world (trace w ++ checked_run s) (heap w)).
Proof.
  unfold run_script_internal, bind, emit. simpl.
  destruct (syntax_error s); [done|]. simpl. rewrite <- app_assoc.
  by case_decide.
Qed.

Lemma mapM_chunks {A} (stderr_of : string -> string) (syntax_error : string -> bool)
    (f : A -> M unit) (empty : A -> bool) (script : A -> string) (xs : list A) (w : world) :
  (forall x w', f x w' = (if empty x then raise TypeError
                          else run_script_internal stderr_of syntax_error (script x)) w') ->
  let sp := split_at_failure
              (fun x => negb (empty x) && script_passes stderr_of syntax_error (script x)) xs in
  mapM f xs w
  = (match snd sp with
     | None => Ok (map (fun _ => tt) xs)
     | Some x => Exc (if empty x then TypeError
                      else if syntax_error (script x) then EnvironmentError (script x)
                      else RuntimeError ("Script returned an error: " +:+ stderr_of (script x)))
     end,
     mk_world (trace w ++ flat_map (fun x => checked_run (script x)) (fst sp) ++
               match snd sp with
               | None => []
               | Some x => if empty x then []
                           else SyntaxCheck (script x)
                                :: (if syntax_error (script x) then [] else [RunEcl (script x)])
               end) (heap w)).
Proof.
  intros Hf. cbv zeta. revert w. induction xs as [|x xs IH]; intros w.
  - simpl. rewrite app_nil_r. by destruct w.
  - cbn [mapM split_at_failure]. unfold bind at 1. rewrite Hf.
    destruct (empty x) eqn:He; cbn [negb andb].
    + simpl. rewrite He, app_nil_r. by destruct w.
    + change (script_passes stderr_of syntax_error (script x))
        with (negb (syntax_error (script x)) && bool_decide (stderr_of (script x) = "")).
      destruct (syntax_error (script x)) eqn:Hs; cbn [negb andb].
      * rewrite run_script_internal_eq, Hs. simpl. by rewrite He, Hs.
      * destruct (decide (stderr_of (script x) = "")) as [Hok|Hok].
        -- rewrite bool_decide_true by done.
           rewrite run_script_internal_eq, Hs, decide_True by done.
           destruct (split_at_failure _ xs) as [ok failed] eqn:Esp.
           specialize (IH (mk_world (trace w ++ checked_run (script x)) (heap w))).
           simpl in IH |- *. unfold bind. rewrite IH.
           destruct failed; simpl; rewrite <- !app_assoc; reflexivity.
        -- rewrite bool_decide_false by done.
           rewrite run_script_internal_eq, Hs, decide_False by done. simpl.
           by rewrite He, Hs.
Qed.

(** The chunked path of [send_file_internal] handles the ranges in order.
    For each one, [make_rows] renders its rows, or raises [TypeError] when
    the range selects no row; then the chunk script is syntax-checked and
    run.  The first range that has no row, fails its syntax check or
    reports an error stops the upload: that error is the result, and no
    later chunk and no concatenation is submitted.  When every chunk
    passes, the concatenation is submitted once and the call succeeds,
    whatever that submission reports. *)
Theorem send_file_in_chunks_stops_at_failure (stderr_of : string -> string)
    (syntax_error : string -> bool) (df : frame) (target_name : string)
    (break_positions : list nat) (record_set : string) (overwrite delete : bool) (w : world) :
  let bounds := zip (0 :: map S (inner break_positions))
                    (inner break_positions ++ [length (index df)]) in
  let names := map (fun '(start, end_) => temp_name target_name start end_) bounds in
  let script := fun '(start, end_) =>
                  send_data_script (render_rows (loc_slice df start end_)) record_set
                                   target_name overwrite in
  let sp := split_at_failure
              (fun b => negb (slice_empty df b) && script_passes stderr_of syntax_error (script b))
              bounds in
  let r := _send_file_in_chunks stderr_of syntax_error df target_name break_positions
                                record_set overwrite delete w in
  trace (snd r)
  = trace w ++ flat_map (fun b => checked_run (script b)) (fst sp) ++
    match snd sp with
    | None => [RunEcl (concat_files_script names target_name record_set overwrite delete)]
    | Some b => if slice_empty df b then []
                else SyntaxCheck (script b)
                     :: (if syntax_error (script b) then [] else [RunEcl (script b)])
    end
  /\ fst r = match snd sp with
             | None => Ok tt
             | Some b => Exc (if slice_empty df b then TypeError
                              else if syntax_error (script b) then EnvironmentError (script b)
                              else RuntimeError ("Script returned an error: "
                                                 +:+ stderr_of (script b)))
             end.
Proof.
  cbv zeta. unfold _send_file_in_chunks. cbv zeta.
  set (bounds := zip _ _).
  set (sc := fun '(start, end_) =>
               send_data_script (render_rows (loc_slice df start end_)) record_set
                                target_name overwrite).
  pose proof (mapM_chunks stderr_of syntax_error
                (fun '(start, end_) =>
                   let* all_rows := make_rows df start end_ in
                   send_data stderr_of syntax_error all_rows record_set target_name
                             overwrite delete)
                (slice_empty df) sc bounds w) as H.
  cbv zeta in H. lapply H; clear H; [intros H|].
  2:{ intros [s e] w'. unfold slice_empty, make_rows, sc. cbv beta iota zeta delta [fst snd].
      destruct (index (loc_slice df s e)); reflexivity. }
  split; unfold bind at 1; rewrite H;
    destruct (snd (split_at_failure _ bounds)) as [b|]; simpl; try reflexivity.
  unfold concat_files, emit. simpl. rewrite <- !app_assoc. reflexivity.
Qed.

(* ------------------------------------------------------------------ *)
(** ** [save_outputs] with a list of file names *)

Lemma lookup_map_std {A B} (f : A -> B) (l : list A) (i : nat) :
  map f l !! i = f <$> l !! i.
Proof. revert i. induction l as [|x l IH]; intros [|i]; simpl; auto. Qed.

Lemma lookup_zip_longest {A B} (a : list A) (b : list B) (i : nat) :
  zip_longest a b !! i
  = if decide (i < length a \/ i < length b) then Some (a !! i, b !! i) else None.
Proof.
  revert b i. induction a as [|x a IH]; intros b i.
  - cbn [zip_longest]. rewrite lookup_map_std. destruct (b !! i) eqn:E.
    + rewrite decide_True; [done|]. right. apply lookup_lt_is_Some. by eexists.
    + rewrite decide_False; [done|]. apply lookup_ge_None in E. cbn [length]. lia.
  - destruct b as [|y b]; destruct i as [|i]; cbn [zip_longest].
    + rewrite decide_True; [done|]. cbn [length]. lia.
    + change ((((Some x, None) :: zip_longest a (@nil B)) !! S i)) with (zip_longest a (@nil B) !! i).
      rewrite IH. cbn [length].
      destruct (decide (i < length a \/ i < 0)), (decide (S i < S (length a) \/ S i < 0));
        done || lia.
    + rewrite decide_True; [done|]. cbn [length]. lia.
    + change ((((Some x, Some y) :: zip_longest a b) !! S i)) with (zip_longest a b !! i).
      rewrite IH. cbn [length].
      destruct (decide (i < length a \/ i < length b)),
               (decide (S i < S (length a) \/ S i < S (length b)));
        done || lia.
Qed.

Lemma chosen_filenames_lookup (fns pfns : list string) (i : nat) :
  map (fun '(fn, pfn) => match truthy fn with Some f => Some f | None => pfn end)
      (zip_longest fns pfns) !! i
  = if decide (i < length fns \/ i < length pfns)
    then Some (match truthy (fns !! i) with Some f => Some f | None => pfns !! i end)
    else None.
Proof. rewrite lookup_map_std, lookup_zip_longest. by case_decide. Qed.

Lemma mapM_parse_output_ok (parse_xml : string -> res frame) (results : list (string * string))
    (w : world) :
  first_parse_error parse_xml results = None ->
  exists v, mapM (parse_output parse_xml) results w = (Ok v, w) /\ map fst v = map fst results.
Proof.
  revert w. induction results as [|[name xml] results IH]; intros w H;
    cbn [mapM first_parse_error] in *.
  - by exists [].
  - destruct (parse_xml xml) as [df|e] eqn:Ep; [|discriminate].
    assert (P : parse_output parse_xml (name, xml) w = (Ok (name, df), w))
      by (simpl; by rewrite Ep).
    rewrite (bind_ok _ _ _ _ _ P).
    destruct (IH w H) as (v & E & Hv).
    exists ((name, df) :: v). rewrite (bind_ok _ _ _ _ _ E). simpl. by rewrite Hv.
Qed.

Lemma mapM_prefix_ok (p : string) (C : list (option string)) (w : world) :
  Forall is_Some C ->
  mapM (fun n => match n with
                 | Some n => ret (Some (p +:+ n))
                 | None => raise TypeError
                 end) C w
  = (Ok (map (option_map (fun n => p +:+ n)) C), w).
Proof.
  revert w. induction C as [|c C IH]; intros w H; [done|].
  inversion H as [|? ? [n ->] HC]; subst. cbn [mapM].
  rewrite (bind_ok _ _ w w (Some (p +:+ n))) by reflexivity.
  rewrite (bind_ok _ _ _ _ _ (IH w HC)). reflexivity.
Qed.

Lemma mapM_prefix_none (p : string) (C : list (option string)) (w : world) :
  None ∈ C ->
  mapM (fun n => match n with
                 | Some n => ret (Some (p +:+ n))
                 | None => raise TypeError
                 end) C w
  = (Exc TypeError, w).
Proof.
  revert w. induction C as [|[n|] C IH]; intros w H.
  - by apply not_elem_of_nil in H.
  - cbn [mapM]. rewrite (bind_ok _ _ w w (Some (p +:+ n))) by reflexivity.
    apply elem_of_cons in H as [H|H]; [discriminate|].
    by rewrite (bind_exc _ _ _ _ _ (IH w H)).
  - cbn [mapM]. by rewrite (bind_exc _ _ w w TypeError).
Qed.

Lemma mapM_writes (directory : string) (ps : list (option string * (string * frame)))
    (w : world) :
  Forall (fun p => is_Some (fst p)) ps ->
  exists u,
    mapM (fun '(name, _) => match name with
                            | Some n => emit (WriteCsv (path_join directory n))
                            | None => raise TypeError
                            end) ps w
    = (Ok u, mk_world (trace w ++ map (fun p => WriteCsv (path_join directory (default "" (fst p)))) ps)
                      (heap w)).
Proof.
  revert w. induction ps as [|[[n|] x] ps IH]; intros w H.
  - exists []. destruct w. simpl. by rewrite app_nil_r.
  - inversion H as [|? ? _ Hps]; subst. cbn [mapM].
    rewrite (bind_ok _ _ w (mk_world (trace w ++ [WriteCsv (path_join directory n)]) (heap w)) tt)
      by reflexivity.
    destruct (IH (mk_world (trace w ++ [WriteCsv (path_join directory n)]) (heap w)) Hps) as [u E]. rewrite (bind_ok _ _ _ _ _ E).
    exists (tt :: u). simpl. by rewrite <- app_assoc.
  - inversion H as [|? ? Hs _]; subst. by destruct Hs.
Qed.

Lemma writes_from_chosen (directory : string) (C : list (option string))
    (v : list (string * frame)) (names : list string) (w : world) :
  length names = length v ->
  (forall i n, names !! i = Some n -> C !! i = Some (Some n)) ->
  exists u,
    mapM (fun '(name, _) => match name with
                            | Some n => emit (WriteCsv (path_join directory n))
                            | None => raise TypeError
                            end) (zip C v) w
    = (Ok u, mk_world (trace w ++ map (fun n => WriteCsv (path_join directory n)) names) (heap w)).
Proof.
  intros Hlen HC.
  assert (HF : Forall (fun p => is_Some (fst p)) (zip C v)).
  { apply Forall_lookup. intros i p Hp. rewrite lookup_zip_with in Hp.
    destruct (v !! i) as [x|] eqn:Ev; [|by destruct (C !! i)].
    destruct (names !! i) as [n|] eqn:En.
    - rewrite (HC i n En) in Hp. simpl in Hp. injection Hp as <-. by eexists.
    - apply lookup_ge_None in En. apply lookup_lt_Some in Ev. lia. }
  destruct (mapM_writes directory _ w HF) as [u E]. exists u. rewrite E.
  do 3 f_equal. apply list_eq. intros i. rewrite !lookup_map_std, lookup_zip_with.
  destruct (names !! i) as [n|] eqn:En.
  - rewrite (HC i n En). simpl.
    destruct (v !! i) as [x|] eqn:Ev; [done|].
    apply lookup_ge_None in Ev. apply lookup_lt_Some in En. lia.
  - assert (Ev : v !! i = None) by (apply lookup_ge_None; apply lookup_ge_None in En; lia).
    destruct (C !! i); simpl; by rewrite ?Ev.
Qed.

(** [save_outputs] given a list of file names, when the run reports no error
    and every output parses: unless a [prefix] is set and one of the surplus
    names (those past the number of outputs) is empty, it writes one CSV per
    output, in order, to [directory/prefix + name], where [name] is the
    output's file name from the list when it is there and not empty, and
    [<output name>.csv] otherwise. *)
Theorem save_outputs_with_filenames (stderr_of stdout_of : string -> string)
    (find_datasets : string -> list (string * string)) (parse_xml : string -> res frame)
    (script directory : string) (filenames : list string) (prefix : option string) (w : world)
    (Hrun : stderr_of script = "")
    (Hparse : first_parse_error parse_xml (find_datasets (stdout_of script)) = None)
    (Hnames : truthy prefix = None
              \/ "" ∉ drop (length (find_datasets (stdout_of script))) filenames) :
  let outs := find_datasets (stdout_of script) in
  let names := imap (fun i '(name, _) =>
                       default "" (truthy prefix) +:+
                       match truthy (filenames !! i) with
                       | Some fn => fn
                       | None => name +:+ ".csv"
                       end) outs in
  let r := save_outputs stderr_of stdout_of find_datasets parse_xml script directory
                        (Some filenames) prefix w in
  fst r = Ok tt
  /\ trace (snd r)
     = trace w ++ RunEcl script :: map (fun n => WriteCsv (path_join directory n)) names
  /\ heap (snd r) = heap w.
Proof.
  cbv zeta. unfold save_outputs.
  rewrite (bind_ok _ _ _ _ _ (eq_trans (run_ecl_script_eq _ _ _ _) (f_equal (fun x => (x, _)) (decide_True _ _ Hrun)))).
  cbv beta zeta.
  set (outs := find_datasets (stdout_of script)) in *.
  set (w1 := mk_world (trace w ++ [RunEcl script]) (heap w)).
  destruct (mapM_parse_output_ok parse_xml outs w1 Hparse) as (v & E & Hv).
  rewrite (bind_ok _ _ _ _ _ E). cbv beta zeta.
  rewrite (bind_ok _ _ w1 w1 filenames) by reflexivity. cbv beta zeta.
  set (pfns := map (fun '(name, _) => name +:+ ".csv") v).
  set (C := map (fun '(fn, pfn) => match truthy fn with Some f => Some f | None => pfn end)
                (zip_longest filenames pfns)).
  set (names := imap (fun i '(name, _) =>
                        default "" (truthy prefix) +:+
                        match truthy (filenames !! i) with
                        | Some fn => fn
                        | None => name +:+ ".csv"
                        end) outs).
  assert (Hlen : length v = length outs) by (rewrite <- (length_map fst v), Hv; apply length_map).
  assert (Hpf : length pfns = length outs) by (unfold pfns; by rewrite length_map).
  (* The entry of [C] for an output. *)
  assert (HCout : forall (i : nat) (name xml : string), outs !! i = Some (name, xml) ->
            C !! i = Some (Some (match truthy (filenames !! i) with
                                 | Some fn => fn
                                 | None => name +:+ ".csv"
                                 end))).
  { intros i name xml Eo. unfold C. rewrite chosen_filenames_lookup.
    assert (Hi : i < length pfns) by (rewrite Hpf; eapply lookup_lt_Some; eauto).
    rewrite decide_True by lia.
    assert (Ep : pfns !! i = Some (name +:+ ".csv")).
    { unfold pfns. rewrite lookup_map_std.
      assert (Ef : map fst v !! i = Some name) by (rewrite Hv, lookup_map_std, Eo; done).
      rewrite lookup_map_std in Ef. destruct (v !! i) as [[n df]|]; [|done].
      simpl in Ef. by injection Ef as ->. }
    rewrite Ep. by destruct (truthy (filenames !! i)). }
  assert (Hnl : length names = length v) by (unfold names; rewrite length_imap; lia).
  assert (Hnames_C : forall C' : list (option string), (forall (i : nat) (c : string), C !! i = Some (Some c) ->
                                   C' !! i = Some (Some (default "" (truthy prefix) +:+ c))) ->
                     forall (i : nat) (n : string), names !! i = Some n -> C' !! i = Some (Some n)).
  { intros C' HC' i n En. unfold names in En. rewrite list_lookup_imap in En.
    destruct (outs !! i) as [[name xml]|] eqn:Eo; [|discriminate].
    simpl in En. injection En as <-. apply HC'. eapply HCout; eauto. }
  destruct (truthy prefix) as [p|] eqn:Eprefix.
  - destruct Hnames as [Hnames|Hnames]; [discriminate|].
    assert (HF : Forall is_Some C).
    { apply Forall_lookup. intros i c Hc. unfold C in Hc. rewrite chosen_filenames_lookup in Hc.
      case_decide as Hi; [|discriminate]. injection Hc as <-.
      destruct (truthy (filenames !! i)) as [f|] eqn:Et; [by eexists|].
      destruct (pfns !! i) as [pf|] eqn:Ep; [by eexists|].
      exfalso. apply lookup_ge_None in Ep.
      destruct (filenames !! i) as [s|] eqn:Ef.
      - simpl in Et. case_decide as Hs; [|discriminate]. subst s. apply Hnames.
        apply (list_elem_of_lookup_2 _ (i - length outs)). rewrite lookup_drop.
        by replace (length outs + (i - length outs)) with i by lia.
      - apply lookup_ge_None in Ef. lia. }
    rewrite (bind_ok _ _ w1 w1 _ (mapM_prefix_ok p C w1 HF)). cbv beta zeta.
    destruct (writes_from_chosen directory (map (option_map (fun n => p +:+ n)) C) v names w1
                Hnl) as [u Ew].
    { apply Hnames_C. intros i c Hc. rewrite lookup_map_std, Hc. reflexivity. }
    rewrite (bind_ok _ _ _ _ _ Ew). simpl. by rewrite <- app_assoc.
  - rewrite (bind_ok _ _ w1 w1 C) by reflexivity. cbv beta zeta.
    destruct (writes_from_chosen directory C v names w1 Hnl) as [u Ew].
    { apply Hnames_C. intros i c Hc. exact Hc. }
    rewrite (bind_ok _ _ _ _ _ Ew). simpl. by rewrite <- app_assoc.
Qed.

(** [save_outputs] given a list of file names with more names than outputs,
    one surplus name empty and a non-empty [prefix]: after a successful run
    and parse it raises [TypeError] ([prefix + None]) before writing any
    file. *)
Theorem save_outputs_empty_surplus_name (stderr_of stdout_of : string -> string)
    (find_datasets : string -> list (string * string)) (parse_xml : string -> res frame)
    (script directory : string) (filenames : list string) (prefix : option string)
    (p : string) (w : world)
    (Hrun : stderr_of script = "")
    (Hparse : first_parse_error parse_xml (find_datasets (stdout_of script)) = None)
    (Hprefix : truthy prefix = Some p)
    (Hempty : "" ∈ drop (length (find_datasets (stdout_of script))) filenames) :
  let r := save_outputs stderr_of stdout_of find_datasets parse_xml script directory
                        (Some filenames) prefix w in
  fst r = Exc TypeError
  /\ trace (snd r) = trace w ++ [RunEcl script]
  /\ heap (snd r) = heap w.
Proof.
  cbv zeta. unfold save_outputs.
  rewrite (bind_ok _ _ _ _ _ (eq_trans (run_ecl_script_eq _ _ _ _) (f_equal (fun x => (x, _)) (decide_True _ _ Hrun)))).
  cbv beta zeta.
  set (outs := find_datasets (stdout_of script)) in *.
  set (w1 := mk_world (trace w ++ [RunEcl script]) (heap w)).
  destruct (mapM_parse_output_ok parse_xml outs w1 Hparse) as (v & E & Hv).
  rewrite (bind_ok _ _ _ _ _ E). cbv beta zeta.
  rewrite (bind_ok _ _ w1 w1 filenames) by reflexivity. cbv beta zeta.
  set (pfns := map (fun '(name, _) => name +:+ ".csv") v).
  set (C := map (fun '(fn, pfn) => match truthy fn with Some f => Some f | None => pfn end)
                (zip_longest filenames pfns)).
  assert (Hpf : length pfns = length outs).
  { unfold pfns. rewrite length_map, <- (length_map fst v), Hv. apply length_map. }
  assert (HN : None ∈ C).
  { apply list_elem_of_lookup_1 in Hempty as [j Hj]. rewrite lookup_drop in Hj.
    apply (list_elem_of_lookup_2 _ (length outs + j)). unfold C.
    rewrite chosen_filenames_lookup, Hj.
    rewrite decide_True by (left; eapply lookup_lt_Some; eauto).
    assert (Ep : pfns !! (length outs + j) = None) by (apply lookup_ge_None; lia).
    by rewrite Ep. }
  rewrite Hprefix.
  rewrite (bind_exc _ _ _ _ _ (mapM_prefix_none p C w1 HN)). done.
Qed.

Lemma save_outputs_with_filenames_witness :
  (fun _ : string => "") "OUTPUT(1);" = ""
  /\ first_parse_error (fun _ => Ok empty_frame)
       ((fun _ : string => [("a", "<x/>"); ("b", "<y/>")]) ((fun _ : string => "out") "OUTPUT(1);"))
     = None
  /\ ("" ∉ drop 2 ["first.csv"])
  /\ (let r := save_outputs (fun _ => "") (fun _ => "out") (fun _ => [("a", "<x/>"); ("b", "<y/>")])
                            (fun _ => Ok empty_frame) "OUTPUT(1);" "dir" (Some ["first.csv"])
                            (Some "run_") (mk_world [] []) in
      fst r = Ok tt
      /\ trace (snd r) = [RunEcl "OUTPUT(1);"; WriteCsv (path_join "dir" "run_first.csv");
                          WriteCsv (path_join "dir" "run_b.csv")]
      /\ heap (snd r) = []).
Proof.
  assert (Hn : "" ∉ drop 2 ["first.csv"]) by (simpl; apply not_elem_of_nil).
  split; [reflexivity|]. split; [reflexivity|]. split; [exact Hn|].
  exact (save_outputs_with_filenames (fun _ => "") (fun _ => "out")
           (fun _ => [("a", "<x/>"); ("b", "<y/>")]) (fun _ => Ok empty_frame)
           "OUTPUT(1);" "dir" ["first.csv"] (Some "run_") (mk_world [] [])
           eq_refl eq_refl (or_intror Hn)).
Defined.

Lemma save_outputs_empty_surplus_name_witness :
  (fun _ : string => "") "OUTPUT(1);" = ""
  /\ first_parse_error (fun _ => Ok empty_frame)
       ((fun _ : string => [("a", "<x/>")]) ((fun _ : string => "out") "OUTPUT(1);")) = None
  /\ truthy (Some "run_") = Some "run_"
  /\ "" ∈ drop 1 ["first.csv"; ""]
  /\ (let r := save_outputs (fun _ => "") (fun _ => "out") (fun _ => [("a", "<x/>")])
                            (fun _ => Ok empty_frame) "OUTPUT(1);" "dir" (Some ["first.csv"; ""])
                            (Some "run_") (mk_world [] []) in
      fst r = Exc TypeError /\ trace (snd r) = [RunEcl "OUTPUT(1);"] /\ heap (snd r) = []).
Proof.
  assert (He : "" ∈ drop 1 ["first.csv"; ""]) by (simpl; apply list_elem_of_singleton; reflexivity).
  split; [reflexivity|]. split; [reflexivity|]. split; [reflexivity|]. split; [exact He|].
  exact (save_outputs_empty_surplus_name (fun _ => "") (fun _ => "out")
           (fun _ => [("a", "<x/>")]) (fun _ => Ok empty_frame)
           "OUTPUT(1);" "dir" ["first.csv"; ""] (Some "run_") "run_" (mk_world [] [])
           eq_refl eq_refl eq_refl He).
Defined.

(* ------------------------------------------------------------------ *)
(** ** Which compiler feedback [syntax_check] lets through *)

(** [syntax_check] on an existing script returns (without raising) exactly
    when [eclcc] printed nothing on [stderr], or printed something whose
    lower-cased text contains [": warning"] and not [": error"]; it logs a
    warning exactly in the second case. Any other output, in particular
    any [": error"] whatever its case and whatever warnings come with it,
    makes it raise. *)
Theorem syntax_check_passes (is_file : string -> bool) (run_stderr : string -> string)
    (legacy : bool) (repo : option string) (script : string)
    (Hfile : is_file script = true) :
  let err := run_stderr (syntax_command legacy repo script) in
  (syntax_check is_file run_stderr legacy repo script = Passes None <-> err = "")
  /\ ((exists msg, syntax_check is_file run_stderr legacy repo script = Passes (Some msg))
      <-> err <> "" /\ contains ": warning" (lower err) = true
          /\ contains ": error" (lower err) = false).
Proof.
  cbv zeta. unfold syntax_check. rewrite Hfile. cbn [negb].
  set (err := run_stderr (syntax_command legacy repo script)).
  destruct (decide (err = "")) as [He|He].
  - rewrite bool_decide_false by (intros H; exact (H He)). cbn [andb].
    split; [done|]. split; [by intros [msg ?]|]. intros (H & _). by destruct (H He).
  - rewrite bool_decide_true by exact He. cbn [andb].
    destruct (contains ": error" (lower err)), (contains ": warning" (lower err)); cbn [negb];
      split; (split; [intros H; discriminate H || (by destruct H) | ]);
      try (intros ?; congruence);
      try (intros (_ & ? & ?); discriminate);
      try (by eexists).
Qed.

Lemma syntax_check_passes_witness :
  (fun _ : string => true) "a.ecl" = true
  /\ (exists msg, syntax_check (fun _ => true) (fun _ => "a.ecl(1,2): Warning C1041: no maximum size")
                               false None "a.ecl" = Passes (Some msg))
  /\ syntax_check (fun _ => true) (fun _ => "a.ecl(1,2): Warning C1041: no maximum size; a.ecl(3,1): ERROR C2167: unknown")
                  false None "a.ecl" <> Passes None.
Proof.
  split; [reflexivity|]. split.
  - apply (proj2 (syntax_check_passes (fun _ => true)
                    (fun _ => "a.ecl(1,2): Warning C1041: no maximum size") false None "a.ecl"
                    eq_refl)).
    split; [discriminate|]. split; vm_compute; reflexivity.
  - intros H.
    apply (proj1 (syntax_check_passes (fun _ => true)
                    (fun _ => "a.ecl(1,2): Warning C1041: no maximum size; a.ecl(3,1): ERROR C2167: unknown")
                    false None "a.ecl" eq_refl)) in H.
    discriminate H.
Defined.

(* ------------------------------------------------------------------ *)
(** ** Which cells [make_recordset] makes indistinguishable *)

Lemma blanked_text_empty (t : string) :
  (if decide (lower t ∈ ["nan"; "na"; "null"]) then "" else t) = ""
  <-> t = "" \/ lower t ∈ ["nan"; "na"; "null"].
Proof.
  case_decide as H; split; intros E; auto.
  destruct E as [E|E]; [done|contradiction].
Qed.

(** Two cells of a column that [make_recordset] normalises end up as the
    same ECL literal exactly when both are blanked (their text is empty, or
    is [nan], [na] or [null] in any letter case, a missing value printing as
    [nan]) or their texts are equal. *)
Theorem normalise_cell_same (c1 c2 : cell) :
  normalise_cell c1 = normalise_cell c2
  <-> ((astype_str c1 = "" \/ lower (astype_str c1) ∈ ["nan"; "na"; "null"])
       /\ (astype_str c2 = "" \/ lower (astype_str c2) ∈ ["nan"; "na"; "null"]))
      \/ astype_str c1 = astype_str c2.
Proof.
  rewrite !normalise_cell_eq.
  set (t1 := astype_str c1). set (t2 := astype_str c2).
  split.
  - intros E. injection E as E. rewrite !str_app_nil in E.
    apply string_app_inj_r, escape_quotes_inj in E.
    destruct (decide (lower t1 ∈ ["nan"; "na"; "null"])) as [H1|H1],
             (decide (lower t2 ∈ ["nan"; "na"; "null"])) as [H2|H2].
    + left. split; by right.
    + left. split; [by right|by left].
    + left. split; [by left|by right].
    + by right.
  - intros [[H1 H2]|E].
    + apply blanked_text_empty in H1, H2. by rewrite H1, H2.
    + by rewrite E.
Qed.
